(** * SmartHealthyScan: the capture and bounded-latency analysis pipeline

    A shallow embedding of the three pieces of the application that carry
    state and asynchrony:

    - [GeminiService]: [analyzeIngredientsAndGetRecipes] (geminiService.ts);
    - [App]: [handleCapture], the race of the analysis call against the
      35000 ms timer (App.tsx);
    - [CameraView]: [startCamera] and [capturePhoto] (CameraView.tsx);
    - [ResultDisplay]: the favourites, the check lists, the selector counts
      and the order of the recipe list (ResultDisplay.tsx);
    - [Ui]: the page as a whole, [App] rendering [CameraView] or
      [ResultDisplay] and the effects that start and stop the camera.

    JavaScript runs these on one event loop.  An [async] function is split at
    its [await]s: one definition for the synchronous prefix, one for each
    continuation; the environment (camera, network, timers, canvas) supplies
    the outcome each continuation is resumed with. *)

From Stdlib Require Import String Ascii List Arith NArith ZArith Lia Bool.
From Stdlib Require Import Permutation Sorted.
From stdpp Require Import base list strings gmap.
Import ListNotations.
Open Scope string_scope.
Set Warnings "-register-all,-clear-no-such-hyp".

(** ** JavaScript values the code handles *)

Module Js.

Inductive Nullish : Type := Null | Undefined.

(** A thrown value ([catch (error: any)]).  The code only ever reads
    [.message] from it: an object, or a primitive other than [null] and
    [undefined], whose [message] is a string or is absent ([undefined] or
    [null]); or [null] or [undefined] itself, on which reading [.message]
    throws.  A value whose [message] is of another kind is not a [Thrown];
    the one place where the code can meet such a value has a case of its
    own ([GeminiService.RejectsOdd]). *)
Inductive Thrown : Type :=
| ErrorObj (message : option string)
| Bare (n : Nullish).

(** Why the engine raises a [TypeError] when the code reads a caught
    value. *)
Inductive TypeErrorCause : Type :=
| MessageOf (n : Nullish)     (* [null.message], [undefined.message] *)
| IncludesNotCallable.        (* [m.includes(...)] where [m] has no such method *)

(** [new Error(msg)] *)
Definition new_Error (msg : string) : Thrown := ErrorObj (Some msg).

Inductive Settlement (A : Type) : Type :=
| Fulfilled (value : A)
| Rejected (reason : Thrown).
Arguments Fulfilled {A} value.
Arguments Rejected {A} reason.

(** A promise: unsettled or settled once, and whether a rejection handler
    is subscribed (a rejection without one is reported to the host as an
    unhandled rejection). *)
Record Promise (A : Type) : Type := mkPromise {
  state : option (Settlement A);
  handled : bool
}.
Arguments mkPromise {A} state handled.
Arguments state {A} p.
Arguments handled {A} p.

(** Truthiness of a string-or-undefined ([!text], [if (base64)],
    [err.message || ...]): undefined and the empty string are falsy. *)
Definition truthy (s : option string) : bool :=
  match s with
  | None => false
  | Some s => negb (String.eqb s "")
  end.

(** [a || d] on a string-or-undefined [a]. *)
Definition or_else (a : option string) (d : string) : string :=
  match a with
  | Some s => if String.eqb s "" then d else s
  | None => d
  end.

(** [String.prototype.includes].  The strings are UTF-8 bytes and the
    needles used are ASCII, whose bytes never occur inside a multi-byte
    sequence, so byte-wise search agrees with the search on code units. *)
Fixpoint includes (s needle : string) : bool :=
  String.prefix needle s ||
  match s with
  | EmptyString => false
  | String _ rest => includes rest needle
  end.

(** [s.split(sep)] for a one-character separator. *)
Fixpoint split (sep : ascii) (s : string) : list string :=
  match s with
  | EmptyString => [EmptyString]
  | String c rest =>
      if Ascii.eqb c sep then EmptyString :: split sep rest
      else match split sep rest with
           | piece :: pieces => String c piece :: pieces
           | [] => [String c EmptyString]
           end
  end.

(** The result of [JSON.parse]: a JSON value.  Numbers are kept as
    integers, which is all the response schema asks for. *)
Inductive Json : Type :=
| JNull
| JBool (b : bool)
| JNumber (n : Z)
| JString (s : string)
| JArray (items : list Json)
| JObject (fields : list (string * Json)).

(** [obj.key] on a parsed object. *)
Fixpoint field (key : string) (fields : list (string * Json)) : option Json :=
  match fields with
  | [] => None
  | (k, v) :: rest => if String.eqb k key then Some v else field key rest
  end.

End Js.
Import Js.

(** ** types.ts *)

Module Types.

Definition is_string (v : Json) : bool :=
  match v with JString _ => true | _ => false end.

Definition is_number (v : Json) : bool :=
  match v with JNumber _ => true | _ => false end.

Definition is_string_array (v : Json) : bool :=
  match v with JArray items => forallb is_string items | _ => false end.

Definition required (key : string) (ok : Json -> bool)
    (fields : list (string * Json)) : bool :=
  match field key fields with Some v => ok v | None => false end.

Definition optional (key : string) (ok : Json -> bool)
    (fields : list (string * Json)) : bool :=
  match field key fields with Some v => ok v | None => true end.

(** [interface IngredientInfo] *)
Definition is_IngredientInfo (v : Json) : bool :=
  match v with
  | JObject fs =>
      required "name" is_string fs && required "info" is_string fs &&
      optional "nutrition" is_string fs &&
      optional "caloriesPer100g" is_number fs
  | _ => false
  end.

Definition is_difficulty (v : Json) : bool :=
  match v with
  | JString d =>
      String.eqb d "简单" || String.eqb d "中等" || String.eqb d "困难"
  | _ => false
  end.

(** [interface Recipe] *)
Definition is_Recipe (v : Json) : bool :=
  match v with
  | JObject fs =>
      required "id" is_string fs && required "name" is_string fs &&
      required "description" is_string fs &&
      required "difficulty" is_difficulty fs &&
      required "prepTime" is_string fs &&
      required "allIngredients" is_string_array fs &&
      required "instructions" is_string_array fs &&
      optional "calories" is_string fs
  | _ => false
  end.

(** [interface AnalysisResponse]: the two collections. *)
Definition is_AnalysisResponse (v : Json) : bool :=
  match v with
  | JObject fs =>
      required "ingredients"
        (fun a => match a with
                  | JArray items => forallb is_IngredientInfo items
                  | _ => false
                  end) fs &&
      required "recipes"
        (fun a => match a with
                  | JArray items => forallb is_Recipe items
                  | _ => false
                  end) fs
  | _ => false
  end.

End Types.

(** ** geminiService.ts *)

Module GeminiService.

(** What the code relies on but does not define: the SDK constructor, two
    built-ins and the texts of the engine's [TypeError]s. *)
Record Platform : Type := {
  (** [new GoogleGenAI({ apiKey })]: [Some msg] when the constructor throws
      [Error(msg)] for that key, [None] when it returns a client. *)
  GoogleGenAI_ctor : option string -> option string;
  (** [String.prototype.trim] *)
  String_trim : string -> string;
  (** [JSON.parse]: [inl msg] when it throws [SyntaxError(msg)]. *)
  JSON_parse : string -> string + Json;
  (** message of the [TypeError] the engine raises for that cause *)
  TypeError_message : TypeErrorCause -> string
}.

(** The request handed to [ai.models.generateContent]; the system
    instruction and the response schema are constants of the source and
    are left out. *)
Record GenerateContentRequest : Type := {
  req_apiKey : option string;
  req_model : string;
  req_mimeType : string;
  req_data : string;
  req_text : string;
  req_responseMimeType : string
}.

(** Process-wide state: the environment variable, how often it has been
    read, and the requests sent through the SDK. *)
Record Process : Type := {
  API_KEY : option string;
  env_reads : nat;
  requests : list GenerateContentRequest
}.

Definition set_API_KEY (k : option string) (p : Process) : Process :=
  {| API_KEY := k; env_reads := env_reads p; requests := requests p |}.

(** How the awaited [generateContent] promise settles. *)
Inductive GenerateContentOutcome : Type :=
| Resolves (text : option string)   (* [response.text] *)
| Rejects (reason : Thrown)
| RejectsOdd.
(* [RejectsOdd]: the reason is an object whose [message] is neither a string
   nor nullish and has no [includes] method (a number, a boolean, a plain
   object).  A message that brings an [includes] of its own (an array) is
   left out. *)

Definition model_name : string := "gemini-3-flash-preview".
Definition empty_message : string := "API 返回内容为空".
Definition network_message : string := "网络请求失败，请检查网络或重试。".
Definition recognition_message : string := "识别食材失败，请确保图片清晰并重试。".

Section WithPlatform.
Context (P : Platform).

(** Lines 300-383, up to the [await]: read [process.env.API_KEY], build
    the client, send the request.  [inl e]: the constructor threw, the
    returned promise is already rejected with [e]. *)
Definition analyze_call (base64Image : string) (p : Process)
    : Process * (Thrown + unit) :=
  let apiKey := API_KEY p in
  let p1 := {| API_KEY := API_KEY p; env_reads := S (env_reads p);
               requests := requests p |} in
  match GoogleGenAI_ctor P apiKey with
  | Some msg => (p1, inl (new_Error msg))
  | None =>
      let request := {| req_apiKey := apiKey;
                        req_model := model_name;
                        req_mimeType := "image/jpeg";
                        req_data := base64Image;
                        req_text := "分析这张图片中的食材，并提供相关的减脂食谱。";
                        req_responseMimeType := "application/json" |} in
      ({| API_KEY := API_KEY p1; env_reads := env_reads p1;
          requests := requests p1 ++ [request] |}, inr tt)
  end.

(** Lines 389-395: the [catch] block. *)
Definition analyze_catch (error : Thrown) : Settlement Json :=
  match error with
  | Bare n => Rejected (new_Error (TypeError_message P (MessageOf n)))
  | ErrorObj message =>
      let matches needle :=
        match message with
        | Some m => includes m needle
        | None => false
        end in
      if matches "xhr error" || matches "500"
      then Rejected (new_Error network_message)
      else Rejected (new_Error recognition_message)
  end.

(** Lines 374-395, from the [await] on: how the promise returned by
    [analyzeIngredientsAndGetRecipes] settles. *)
Definition analyze_settle (o : GenerateContentOutcome) : Settlement Json :=
  match o with
  | Rejects e => analyze_catch e
  | RejectsOdd =>                  (* line 391 throws inside the [catch] *)
      Rejected (new_Error (TypeError_message P IncludesNotCallable))
  | Resolves None => analyze_catch (new_Error empty_message)
  | Resolves (Some text) =>
      if String.eqb text "" then analyze_catch (new_Error empty_message)
      else
        match JSON_parse P (String_trim P text) with
        | inr value => Fulfilled value
        | inl msg => analyze_catch (new_Error msg)
        end
  end.

End WithPlatform.

End GeminiService.

(** ** App.tsx *)

Module App.
Import GeminiService.

(** The three [useState] cells; [result] is [JNull] for [null]. *)
Record State : Type := {
  isProcessing : bool;
  result : Json;
  error : option string
}.

Definition initial : State :=
  {| isProcessing := false; result := JNull; error := None |}.

Definition setIsProcessing (b : bool) (s : State) : State :=
  {| isProcessing := b; result := result s; error := error s |}.
Definition setResult (v : Json) (s : State) : State :=
  {| isProcessing := isProcessing s; result := v; error := error s |}.
Definition setError (e : option string) (s : State) : State :=
  {| isProcessing := isProcessing s; result := result s; error := e |}.

(** What the host is told at the end of a session: the argument of
    [setResult], or of [setError] in the [catch] block. *)
Inductive AnalysisOutcome : Type :=
| Success (data : Json)
| Failure (message : string).

Definition deadlineMillis : N := 35000%N.
Definition timeout_message : string := "分析时间过长，请检查网络后重试。".
Definition fallback_message : string := "分析失败，请稍后重试。".

(** One run of [handleCapture]: the component, the process, the three
    promises of lines 17-25, the promise [handleCapture] itself returns
    (which [capturePhoto] drops), and two logs. *)
Record Session : Type := {
  app : State;
  proc : Process;
  analysisPromise : Promise Json;
  timeoutPromise : Promise Json;
  racePromise : Promise Json;
  returnedPromise : Promise unit;
  delivered : list AnalysisOutcome;
  unhandled : list Thrown
}.

(** Events of the loop that concern a running session. *)
Inductive Event : Type :=
| AnalysisSettles (o : GenerateContentOutcome)
| DeadlineFires.

Definition settle {A} (s : Settlement A) (p : Promise A) : Promise A :=
  mkPromise (Some s) (handled p).

(** Rejections reported to the host: a promise rejected while nobody is
    subscribed to it. *)
Definition report {A} (s : Settlement A) (p : Promise A) : list Thrown :=
  match s with
  | Rejected e => if handled p then [] else [e]
  | Fulfilled _ => []
  end.

Section WithPlatform.
Context (P : Platform).

(** Lines 26-33: [handleCapture] resumed by the settlement of the race. *)
Definition handleCapture_resume (s : Settlement Json) (σ : Session) : Session :=
  match s with
  | Fulfilled data =>
      let done := Fulfilled tt in
      {| app := setIsProcessing false (setResult data (app σ));
         proc := proc σ;
         analysisPromise := analysisPromise σ;
         timeoutPromise := timeoutPromise σ;
         racePromise := racePromise σ;
         returnedPromise := settle done (returnedPromise σ);
         delivered := delivered σ ++ [Success data];
         unhandled := unhandled σ |}
  | Rejected (ErrorObj message) =>
      let msg := or_else message fallback_message in
      let done := Fulfilled tt in
      {| app := setIsProcessing false (setError (Some msg) (app σ));
         proc := proc σ;
         analysisPromise := analysisPromise σ;
         timeoutPromise := timeoutPromise σ;
         racePromise := racePromise σ;
         returnedPromise := settle done (returnedPromise σ);
         delivered := delivered σ ++ [Failure msg];
         unhandled := unhandled σ |}
  | Rejected (Bare n) =>
      (* [err.message] throws inside [catch]; [finally] still runs and
         the function's own promise rejects *)
      let done := Rejected (new_Error (TypeError_message P (MessageOf n))) in
      {| app := setIsProcessing false (app σ);
         proc := proc σ;
         analysisPromise := analysisPromise σ;
         timeoutPromise := timeoutPromise σ;
         racePromise := racePromise σ;
         returnedPromise := settle done (returnedPromise σ);
         delivered := delivered σ;
         unhandled := unhandled σ ++ report done (returnedPromise σ) |}
  end.

(** [Promise.race]: the first settlement of an input settles the race
    and resumes the awaiting function; later ones find it settled and
    do nothing. *)
Definition race_input_settled (s : Settlement Json) (σ : Session) : Session :=
  match state (racePromise σ) with
  | Some _ => σ
  | None =>
      handleCapture_resume s
        {| app := app σ; proc := proc σ;
           analysisPromise := analysisPromise σ;
           timeoutPromise := timeoutPromise σ;
           racePromise := settle s (racePromise σ);
           returnedPromise := returnedPromise σ;
           delivered := delivered σ;
           unhandled := unhandled σ ++ report s (racePromise σ) |}
  end.

Definition settle_analysis (s : Settlement Json) (σ : Session) : Session :=
  race_input_settled s
    {| app := app σ; proc := proc σ;
       analysisPromise := settle s (analysisPromise σ);
       timeoutPromise := timeoutPromise σ;
       racePromise := racePromise σ;
       returnedPromise := returnedPromise σ;
       delivered := delivered σ;
       unhandled := unhandled σ ++ report s (analysisPromise σ) |}.

Definition settle_timeout (s : Settlement Json) (σ : Session) : Session :=
  race_input_settled s
    {| app := app σ; proc := proc σ;
       analysisPromise := analysisPromise σ;
       timeoutPromise := settle s (timeoutPromise σ);
       racePromise := racePromise σ;
       returnedPromise := returnedPromise σ;
       delivered := delivered σ;
       unhandled := unhandled σ ++ report s (timeoutPromise σ) |}.

(** Lines 13-25 and the microtasks that follow: the two state updates,
    the timer, the call of the analysis function, the race both promises
    are subscribed to, and the [await] subscribed to the race.  When the
    SDK constructor threw, the analysis promise is born rejected and the
    race settles before any other event. *)
Definition handleCapture (base64Image : string) (a : State) (p : Process)
    : Session :=
  let a1 := setError None (setIsProcessing true a) in
  let '(p1, called) := analyze_call P base64Image p in
  let σ := {| app := a1; proc := p1;
              analysisPromise := mkPromise None true;
              timeoutPromise := mkPromise None true;
              racePromise := mkPromise None true;
              returnedPromise := mkPromise None false;
              delivered := [];
              unhandled := [] |} in
  match called with
  | inl e => settle_analysis (Rejected e) σ
  | inr tt => σ
  end.

(** One event of the loop.  A promise settles once: a second settlement
    of the same promise cannot happen and is ignored. *)
Definition step (σ : Session) (ev : Event) : Session :=
  match ev with
  | AnalysisSettles o =>
      match state (analysisPromise σ) with
      | Some _ => σ
      | None => settle_analysis (analyze_settle P o) σ
      end
  | DeadlineFires =>
      match state (timeoutPromise σ) with
      | Some _ => σ
      | None => settle_timeout (Rejected (new_Error timeout_message)) σ
      end
  end.

Definition run (σ : Session) (evs : list Event) : Session :=
  fold_left step evs σ.

(** The order in which the loop dispatches the two events of a session
    whose network call settles at time [t] with outcome [o] (never, for
    [None]); the timer fires at [deadlineMillis].  When both fall on the
    same millisecond either order is possible: [timer_first] picks it. *)
Definition schedule (settles : option (N * GenerateContentOutcome))
    (timer_first : bool) : list Event :=
  match settles with
  | None => [DeadlineFires]
  | Some (t, o) =>
      if N.ltb t deadlineMillis then [AnalysisSettles o; DeadlineFires]
      else if N.ltb deadlineMillis t then [DeadlineFires; AnalysisSettles o]
      else if timer_first then [DeadlineFires; AnalysisSettles o]
      else [AnalysisSettles o; DeadlineFires]
  end.


(** The analysis promise settles strictly first. *)
Definition settles_before_deadline (p : Process)
    (settles : option (N * GenerateContentOutcome)) (timer_first : bool)
    : option GenerateContentOutcome :=
  match GoogleGenAI_ctor P (API_KEY p) with
  | Some _ => None
  | None =>
      match settles with
      | None => None
      | Some (t, o) =>
          if N.ltb t deadlineMillis || (N.eqb t deadlineMillis && negb timer_first)
          then Some o else None
      end
  end.

Definition session (base64Image : string) (a : State) (p : Process)
    (settles : option (N * GenerateContentOutcome)) (timer_first : bool)
    : Session :=
  run (handleCapture base64Image a p) (schedule settles timer_first).

End WithPlatform.

End App.

(** ** CameraView.tsx *)

Module CameraView.

(** *** The camera device *)

Inductive TrackState : Type := Live | Ended.

(** A media stream: the [readyState] of each of its tracks. *)
Definition MediaStream : Type := list TrackState.

Inductive VideoConstraint : Type :=
| VideoTrue                                      (* [video: true] *)
| VideoIdeal (facingMode : string) (width height : nat).

Record Constraints : Type := {
  video : VideoConstraint;
  audio : bool
}.

(** Every stream handed out so far (a handle is its position), every
    request made, and the number of requests not answered yet. *)
Record Device : Type := {
  streams : list MediaStream;
  requested : list Constraints;
  pending : nat
}.

(** How a [getUserMedia] promise settles.  A synchronous [TypeError] on a
    missing [navigator.mediaDevices] lands in the same [catch] as a
    rejection and is covered by [Refuses]. *)
Inductive GetUserMediaOutcome : Type :=
| Grants
| Refuses (reason : Thrown).

Definition getUserMedia_call (c : Constraints) (d : Device) : Device :=
  {| streams := streams d; requested := requested d ++ [c];
     pending := S (pending d) |}.

(** A granted video-only request yields a new stream with one live video
    track. *)
Definition getUserMedia_settle (o : GetUserMediaOutcome) (d : Device)
    : Device * (Thrown + nat) :=
  match o with
  | Grants =>
      ({| streams := streams d ++ [[Live]]; requested := requested d;
          pending := Nat.pred (pending d) |}, inr (length (streams d)))
  | Refuses e =>
      ({| streams := streams d; requested := requested d;
          pending := Nat.pred (pending d) |}, inl e)
  end.

(** [stream.getTracks().forEach(track => track.stop())] *)
Definition stop_tracks (stream : nat) (d : Device) : Device :=
  {| streams := alter (map (fun _ => Ended)) stream (streams d);
     requested := requested d; pending := pending d |}.

Definition track_live (t : TrackState) : bool :=
  match t with Live => true | Ended => false end.

Definition stream_live (s : MediaStream) : bool := existsb track_live s.

(** Number of streams that still hold the camera. *)
Definition live_streams (d : Device) : nat :=
  length (List.filter stream_live (streams d)).

(** *** The component *)

Record VideoElement : Type := {
  srcObject : option nat;
  readyState : nat;
  videoWidth : nat;
  videoHeight : nat;
  onplaying : bool;            (* handler installed *)
  onloadedmetadata : bool      (* handler installed *)
}.

Record CanvasElement : Type := {
  canvas_width : nat;
  canvas_height : nat
}.

(** The two refs and the four [useState] cells. *)
Record State : Type := {
  videoRef : option VideoElement;
  canvasRef : option CanvasElement;
  error : option string;
  streamActive : bool;
  isFlashing : bool;
  capturedImage : option string
}.

Definition set_videoRef (v : option VideoElement) (s : State) : State :=
  {| videoRef := v; canvasRef := canvasRef s; error := error s;
     streamActive := streamActive s; isFlashing := isFlashing s;
     capturedImage := capturedImage s |}.
Definition set_canvasRef (c : option CanvasElement) (s : State) : State :=
  {| videoRef := videoRef s; canvasRef := c; error := error s;
     streamActive := streamActive s; isFlashing := isFlashing s;
     capturedImage := capturedImage s |}.
Definition setError (e : option string) (s : State) : State :=
  {| videoRef := videoRef s; canvasRef := canvasRef s; error := e;
     streamActive := streamActive s; isFlashing := isFlashing s;
     capturedImage := capturedImage s |}.
Definition setStreamActive (b : bool) (s : State) : State :=
  {| videoRef := videoRef s; canvasRef := canvasRef s; error := error s;
     streamActive := b; isFlashing := isFlashing s;
     capturedImage := capturedImage s |}.
Definition setIsFlashing (b : bool) (s : State) : State :=
  {| videoRef := videoRef s; canvasRef := canvasRef s; error := error s;
     streamActive := streamActive s; isFlashing := b;
     capturedImage := capturedImage s |}.
Definition setCapturedImage (i : option string) (s : State) : State :=
  {| videoRef := videoRef s; canvasRef := canvasRef s; error := error s;
     streamActive := streamActive s; isFlashing := isFlashing s;
     capturedImage := i |}.

Definition fresh_video : VideoElement :=
  {| srcObject := None; readyState := 0; videoWidth := 0; videoHeight := 0;
     onplaying := false; onloadedmetadata := false |}.

Definition fresh_canvas : CanvasElement :=
  {| canvas_width := 300; canvas_height := 150 |}.

Definition unmounted : State :=
  {| videoRef := None; canvasRef := None; error := None;
     streamActive := false; isFlashing := false; capturedImage := None |}.

Definition is_none {A} (o : option A) : bool :=
  match o with None => true | Some _ => false end.

(** Lines 120-162, the part of the JSX that owns the refs: with an error
    only the error panel is rendered; otherwise the canvas is, and the
    video element exactly when there is no captured image.  An element
    that stays keeps its state, one that appears is new.  The JSX tests
    the two cells for truthiness; they hold [null], the camera message or
    what [toDataURL] returned, so the test is one for [None] as long as
    that is not the empty string, which no canvas returns (a canvas that
    cannot be encoded gives [data:,]).  Statements about a stored still
    assume a data URL that is not empty. *)
Definition render (s : State) : State :=
  let want_video := is_none (error s) && is_none (capturedImage s) in
  let want_canvas := is_none (error s) in
  let v := if want_video
           then match videoRef s with
                | Some v => Some v
                | None => Some fresh_video
                end
           else None in
  let c := if want_canvas
           then match canvasRef s with
                | Some c => Some c
                | None => Some fresh_canvas
                end
           else None in
  set_canvasRef c (set_videoRef v s).

(** The component together with the device it drives. *)
Record Controller : Type := {
  view : State;
  device : Device
}.

Definition commit (c : Controller) : Controller :=
  {| view := render (view c); device := device c |}.

Definition mount : Controller :=
  {| view := render unmounted;
     device := {| streams := []; requested := []; pending := 0 |} |}.

(** The lifecycle phase the component is in.  It keeps no phase variable;
    the phase is read off its cells, and off the device for a request in
    flight.  [streamActive] comes first: it is the cell [capturePhoto]
    tests (line 78) and the one that enables the shutter (line 220). *)
Inductive CapturePhase : Type :=
| Uninitialized | Requesting | Streaming | Captured | Failed.

Definition phase_of (c : Controller) : CapturePhase :=
  if streamActive (view c) then Streaming
  else if negb (is_none (capturedImage (view c))) then Captured
  else if negb (is_none (error (view c))) then Failed
  else if Nat.ltb 0 (pending (device c)) then Requesting
  else Uninitialized.

(** *** startCamera *)

Definition preferred_constraints : Constraints :=
  {| video := VideoIdeal "environment" 1920 1080; audio := false |}.

Definition minimal_constraints : Constraints :=
  {| video := VideoTrue; audio := false |}.

Definition camera_error_message : string := "无法访问摄像头。请检查权限设置。".

(** Lines 17-31, up to the first [await]. *)
Definition startCamera_call (c : Controller) : Controller :=
  {| view := setCapturedImage None (view c);
     device := getUserMedia_call preferred_constraints (device c) |}.

(** Lines 37-56, once a stream has been obtained. *)
Definition attach (stream : nat) (s : State) : State :=
  let s1 :=
    match videoRef s with
    | Some v =>
        let v' := {| srcObject := Some stream;
                     readyState := readyState v;
                     videoWidth := videoWidth v;
                     videoHeight := videoHeight v;
                     onplaying := true;
                     onloadedmetadata := true |} in
        let s' := set_videoRef (Some v') s in
        if Nat.leb 2 (readyState v') then setStreamActive true s' else s'
    | None => s
    end in
  setError None s1.

Inductive Awaiting : Type := AwaitingPreferred | AwaitingMinimal.

(** The continuation after each of the two [await]s (lines 31-35 and
    56-60); [Some AwaitingMinimal] when the function suspends again. *)
Definition startCamera_resume (at_ : Awaiting) (o : GetUserMediaOutcome)
    (c : Controller) : Controller * option Awaiting :=
  let '(d1, r) := getUserMedia_settle o (device c) in
  match r, at_ with
  | inr stream, _ =>
      ({| view := attach stream (view c); device := d1 |}, None)
  | inl _, AwaitingPreferred =>
      ({| view := view c;
          device := getUserMedia_call minimal_constraints d1 |},
       Some AwaitingMinimal)
  | inl _, AwaitingMinimal =>
      ({| view := setError (Some camera_error_message) (view c);
          device := d1 |}, None)
  end.

(** A whole call with nothing else interleaved: React commits the pending
    state updates before each continuation runs.  [o2] is only consulted
    when [o1] is a refusal. *)
Definition startCamera (o1 o2 : GetUserMediaOutcome) (c : Controller)
    : Controller :=
  let c0 := commit (startCamera_call c) in
  match startCamera_resume AwaitingPreferred o1 c0 with
  | (c1, None) => commit c1
  | (c1, Some next) => commit (fst (startCamera_resume next o2 (commit c1)))
  end.

(** [handleVideoPlay], and the [catch] of a failed [play()]. *)
Definition handleVideoPlay (c : Controller) : Controller :=
  {| view := setStreamActive true (view c); device := device c |}.

(** The video element starts delivering frames of the given size and
    fires [playing]. *)
Definition video_playing (width height : nat) (c : Controller) : Controller :=
  match videoRef (view c) with
  | Some v =>
      let v' := {| srcObject := srcObject v; readyState := 4;
                   videoWidth := width; videoHeight := height;
                   onplaying := onplaying v;
                   onloadedmetadata := onloadedmetadata v |} in
      let c' := {| view := set_videoRef (Some v') (view c);
                   device := device c |} in
      if onplaying v then commit (handleVideoPlay c') else c'
  | None => c
  end.

(** Lines 67-72, the effect's cleanup. *)
Definition effect_cleanup (c : Controller) : Controller :=
  match videoRef (view c) with
  | Some v =>
      match srcObject v with
      | Some stream => {| view := view c;
                          device := stop_tracks stream (device c) |}
      | None => c
      end
  | None => c
  end.

(** *** capturePhoto *)

(** What the canvas does during one call. *)
Record CanvasEnv : Type := {
  getContext_2d : bool;                 (* [false]: [getContext] returns null *)
  drawImage : option Thrown;            (* [Some e]: [drawImage] throws [e] *)
  toDataURL : Thrown + string           (* [inl e]: [toDataURL] throws [e] *)
}.

(** What a call does to the outside of the component. *)
Inductive Effect : Type :=
| OnCapture (base64 : string)           (* [onCapture(base64)] *)
| FlashOffAfter (ms : nat).             (* [setTimeout(..., 150)] *)

Definition comma : ascii := ","%char.

(** Lines 75-118.  [onCapture] is the parent's [async] handler: calling
    it returns a promise and never throws. *)
Definition capturePhoto (isProcessing : bool) (env : CanvasEnv)
    (c : Controller) : Controller * list Effect :=
  if isProcessing then (c, [])
  else
    match videoRef (view c), canvasRef (view c), streamActive (view c) with
    | Some video, Some canvas, true =>
        let width := videoWidth video in
        let height := videoHeight video in
        if Nat.eqb width 0 || Nat.eqb height 0 then (c, [])
        else
          let s1 := setIsFlashing true (view c) in
          let flash := [FlashOffAfter 150] in
          let s2 := set_canvasRef
                      (Some {| canvas_width := width;
                               canvas_height := height |}) s1 in
          let no_capture := ({| view := s2; device := device c |}, flash) in
          if negb (getContext_2d env) then no_capture
          else
            match drawImage env with
            | Some _ => no_capture                         (* caught, line 113 *)
            | None =>
                match toDataURL env with
                | inl _ => no_capture                      (* caught, line 113 *)
                | inr dataUrl =>
                    let s3 := setCapturedImage (Some dataUrl) s2 in
                    let base64 := nth_error (split comma dataUrl) 1 in
                    let effects :=
                      match base64 with
                      | Some b => if truthy base64
                                  then (flash ++ [OnCapture b])%list else flash
                      | None => flash
                      end in
                    match srcObject video with
                    | Some stream =>
                        ({| view := setStreamActive false s3;
                            device := stop_tracks stream (device c) |},
                         effects)
                    | None =>
                        ({| view := s3; device := device c |}, effects)
                    end
                end
            end
    | _, _, _ => (c, [])
    end.

(** The calls of [onCapture] among the effects: each one starts an
    orchestration session in the parent. *)
Definition captures (effects : list Effect) : list string :=
  flat_map (fun e => match e with
                     | OnCapture b => [b]
                     | FlashOffAfter _ => []
                     end) effects.

(** A capture attempt in phase [Streaming] on a frame of non-zero size, with
    both elements mounted and the stream attached to the video element. *)
Definition capture_ready (c : Controller) (stream : nat) : Prop :=
  phase_of c = Streaming /\
  exists video canvas,
    videoRef (view c) = Some video /\ canvasRef (view c) = Some canvas /\
    srcObject video = Some stream /\
    videoWidth video <> 0 /\ videoHeight video <> 0.

(** The frame the video element currently shows has no pixels. *)
Definition frame_empty (c : Controller) : Prop :=
  exists video, videoRef (view c) = Some video /\
                (videoWidth video = 0 \/ videoHeight video = 0).

End CameraView.

(** ** ResultDisplay.tsx *)

Module ResultDisplay.

(** [interface IngredientInfo] and [interface Recipe], as the props carry
    them.  [difficulty] is whatever string the response held. *)
Record IngredientInfo : Type := {
  name : string;
  info : string;
  nutrition : option string;
  caloriesPer100g : option Z
}.

Record Recipe : Type := {
  id : string;
  recipe_name : string;            (* [name] *)
  description : string;
  difficulty : string;
  prepTime : string;
  allIngredients : list string;
  instructions : list string;
  calories : option string
}.

(** The property names every plain object inherits from
    [Object.prototype]: [obj[key]] and [key in obj] find them when [obj]
    has no own property of that name. *)
Definition Object_prototype_names : list string :=
  ["constructor"; "hasOwnProperty"; "isPrototypeOf"; "propertyIsEnumerable";
   "toLocaleString"; "toString"; "valueOf"; "__proto__";
   "__defineGetter__"; "__defineSetter__"; "__lookupGetter__";
   "__lookupSetter__"].

Definition inherited (key : string) : bool :=
  existsb (String.eqb key) Object_prototype_names.

(** [Array.prototype.includes] on an array of strings. *)
Definition Array_includes (x : string) (l : list string) : bool :=
  existsb (String.eqb x) l.

(** Lines 62-64. *)
Definition toggleRecipe (recipe : string) (expandedRecipeId : option string)
    : option string :=
  match expandedRecipeId with
  | Some open => if String.eqb open recipe then None else Some recipe
  | None => Some recipe
  end.

(** Lines 66-71, the updater handed to [setFavorites]. *)
Definition toggleFavorite (recipe : string) (prev : list string)
    : list string :=
  if Array_includes recipe prev
  then List.filter (fun favId => negb (String.eqb favId recipe)) prev
  else prev ++ [recipe].

(** Lines 73-83, the updater handed to [setCheckedIngredients].  [prev] is
    a plain object used as a map.  [None]: the updater throws, which
    happens when [prev[recipeId]] finds an inherited property, a value
    [new Set] cannot iterate. *)
Definition toggleIngredient (recipeId ingredient : string)
    (prev : gmap string (gset string)) : option (gmap string (gset string)) :=
  let toggled (s : gset string) : gset string :=
    if decide (ingredient ∈ s) then s ∖ {[ingredient]}
    else s ∪ {[ingredient]} in
  match prev !! recipeId with
  | Some s => Some (<[recipeId := toggled s]> prev)
  | None => if inherited recipeId then None
            else Some (<[recipeId := toggled ∅]> prev)
  end.

(** Lines 85-93.  The four counters shown in the selector; the keys are
    简单, 中等, 困难 and 全部.  A difficulty that names an inherited property
    passes the [in] test too, but the increment then lands on a property of
    that name and leaves the four counters alone. *)
Record Counts : Type := {
  easy : nat;        (* 简单 *)
  medium : nat;      (* 中等 *)
  hard : nat;        (* 困难 *)
  all : nat          (* 全部 *)
}.

Definition count_one (c : Counts) (r : Recipe) : Counts :=
  let d := difficulty r in
  if String.eqb d "简单" then
    {| easy := S (easy c); medium := medium c; hard := hard c; all := all c |}
  else if String.eqb d "中等" then
    {| easy := easy c; medium := S (medium c); hard := hard c; all := all c |}
  else if String.eqb d "困难" then
    {| easy := easy c; medium := medium c; hard := S (hard c); all := all c |}
  else if String.eqb d "全部" then
    {| easy := easy c; medium := medium c; hard := hard c; all := S (all c) |}
  else c.

Definition counts (recipes : list Recipe) : Counts :=
  fold_left count_one recipes
    {| easy := 0; medium := 0; hard := 0; all := length recipes |}.

(** The first memo on the props as [App] hands them over: [data] is
    whatever [JSON.parse] returned (App.tsx line 82 passes [result] on).
    Lines 86-88 read [data.recipes.length], call [data.recipes.forEach]
    and read [r.difficulty] of every element; that throws a [TypeError]
    unless [data.recipes] is an array that holds no [null].  Nothing in
    ResultDisplay.tsx or App.tsx catches it. *)
Definition counts_throws (data : Json) : bool :=
  match data with
  | JObject fields =>
      match field "recipes" fields with
      | Some (JArray items) =>
          existsb (fun r => match r with JNull => true | _ => false end) items
      | _ => true
      end
  | _ => true
  end.

(** [difficultyPriority[d] || 99] (lines 102-117): a number, or [None] for
    a value that is not one, the function found under an inherited name. *)
Definition difficultyPriority (d : string) : option Z :=
  if String.eqb d "简单" then Some 1%Z
  else if String.eqb d "中等" then Some 2%Z
  else if String.eqb d "困难" then Some 3%Z
  else if inherited d then None
  else Some 99%Z.

(** The comparator of lines 108-120.  A difference with a non-number is
    [NaN], which [sort] reads as zero. *)
Definition compare (favorites : list string) (a b : Recipe) : Z :=
  let aFav := if Array_includes (id a) favorites then 1%Z else 0%Z in
  let bFav := if Array_includes (id b) favorites then 1%Z else 0%Z in
  if negb (Z.eqb aFav bFav) then (bFav - aFav)%Z
  else match difficultyPriority (difficulty a),
             difficultyPriority (difficulty b) with
       | Some aDiff, Some bDiff => (aDiff - bDiff)%Z
       | _, _ => 0%Z
       end.

(** [Array.prototype.sort] is stable.  When the comparator orders the
    elements consistently the outcome is fixed by that, and is what
    insertion from the right computes.  For other comparators the engine
    may arrange the elements as it likes, and [Array_sort] then stands for
    the engine only in what every arrangement has (the elements, their
    number); the comparator of the recipe list is consistent when no
    difficulty is a name inherited from [Object.prototype]. *)
Fixpoint insert {A} (cmp : A -> A -> Z) (x : A) (l : list A) : list A :=
  match l with
  | [] => [x]
  | y :: rest => if (cmp x y <=? 0)%Z then x :: l else y :: insert cmp x rest
  end.

Definition Array_sort {A} (cmp : A -> A -> Z) (l : list A) : list A :=
  foldr (insert cmp) [] l.

(** Lines 95-121. *)
Definition filteredAndSortedRecipes (recipes : list Recipe)
    (difficultyFilter : string) (favorites : list string) : list Recipe :=
  let result :=
    if negb (String.eqb difficultyFilter "全部")
    then List.filter (fun r => String.eqb (difficulty r) difficultyFilter)
           recipes
    else recipes in
  Array_sort (compare favorites) result.

(** Lines 123-125: [Math.max(...calories, 1)], an absent or zero figure
    counting as zero. *)
Definition maxCalories (ingredients : list IngredientInfo) : Z :=
  foldr Z.max 1%Z
    (map (fun i => match caloriesPer100g i with
                   | Some n => n
                   | None => 0%Z
                   end) ingredients).

(** *** The favourites in [localStorage] (lines 47-60) *)

(** [JSON.parse(savedFavorites)] is stored unchecked: a value that is an
    array of strings is a list of favourites, anything else is not. *)
Fixpoint strings_of (items : list Json) : option (list string) :=
  match items with
  | [] => Some []
  | JString s :: rest =>
      match strings_of rest with
      | Some l => Some (s :: l)
      | None => None
      end
  | _ :: _ => None
  end.

Inductive Loaded : Type :=
| Kept                                (* [setFavorites] not called *)
| Restored (favorites : list string)
| Untyped (value : Json).             (* the state is no string array *)

Section WithPlatform.
Context (P : GeminiService.Platform).
(** [JSON.stringify] on an array of strings *)
Context (JSON_stringify : list string -> string).

(** The first effect: read the item, parse it, keep the state when the
    item is missing, empty or unparseable. *)
Definition load (item : option string) : Loaded :=
  match item with
  | None => Kept
  | Some text =>
      if String.eqb text "" then Kept
      else match GeminiService.JSON_parse P text with
           | inl _ => Kept
           | inr (JArray items) =>
               match strings_of items with
               | Some l => Restored l
               | None => Untyped (JArray items)
               end
           | inr other => Untyped other
           end
  end.

(** The second effect: it runs after the first render and after every
    render in which [favorites] is a new array. *)
Definition save (favorites : list string) : string :=
  JSON_stringify favorites.

(** The component's favourites and the item, once the effects of mounting
    have run: both effects run after the first render, the second one with
    the empty list of that render; an update by the first one renders
    again and saves again.  [None] when the parsed value is no string
    array. *)
Definition mounted (item : option string) : option (list string * string) :=
  let first_write := save [] in
  match load item with
  | Kept => Some ([], first_write)
  | Restored l => Some (l, save l)
  | Untyped _ => None
  end.

(** A click on a heart: the update and the save its render triggers. *)
Definition favorite_clicked (recipe : string) (state : list string * string)
    : list string * string :=
  let favorites := toggleFavorite recipe (fst state) in
  (favorites, save favorites).

End WithPlatform.

End ResultDisplay.

(** ** App.tsx: what is on screen *)

Module AppView.
Import App.

(** Truthiness of a parsed value ([!result]). *)
Definition js_truthy (v : Json) : bool :=
  match v with
  | JNull => false
  | JBool b => b
  | JNumber n => negb (Z.eqb n 0)
  | JString s => negb (String.eqb s "")
  | JArray _ | JObject _ => true
  end.

(** The two branches of line 46. *)
Inductive Screen : Type :=
| CameraScreen      (* the heading, [CameraView] and the error banner *)
| ResultScreen.     (* [ResultDisplay], handed [result] as it is *)

(** Line 46: the branch [App] renders.  Whether [ResultDisplay] then gets
    through its own render depends on the value it is handed
    ([ResultDisplay.counts_throws]). *)
Definition screen (s : State) : Screen :=
  if js_truthy (result s) then ResultScreen else CameraScreen.

(** Lines 61-66: the banner is rendered for a truthy [error]. *)
Definition banner (s : State) : option string :=
  match screen s, error s with
  | CameraScreen, Some m => if String.eqb m "" then None else Some m
  | _, _ => None
  end.

(** Lines 36-39. *)
Definition handleReset (s : State) : State :=
  setError None (setResult JNull s).

End AppView.

(** ** The two components wired together (App.tsx lines 41-83) *)

Module Ui.
Import GeminiService App CameraView AppView.

(** The page: the state of [App], the process, the session of the last
    capture, whether [CameraView] is rendered and which instance of it,
    that instance with the camera device, and the calls of [startCamera]
    waiting for [getUserMedia], each with the instance that made it. *)
Record State : Type := {
  app : App.State;
  proc : Process;
  session : option Session;
  shown : bool;
  instance : nat;
  cam : Controller;
  inflight : list (nat * Awaiting)
}.

Definition with_app (a : App.State) (u : State) : State :=
  {| app := a; proc := proc u; session := session u; shown := shown u;
     instance := instance u; cam := cam u; inflight := inflight u |}.

Definition with_cam (c : Controller) (u : State) : State :=
  {| app := app u; proc := proc u; session := session u; shown := shown u;
     instance := instance u; cam := c; inflight := inflight u |}.

Definition with_view (s : CameraView.State) (u : State) : State :=
  with_cam {| view := s; device := device (cam u) |} u.

(** What the page can be told. *)
Inductive Event : Type :=
| GetUserMediaSettles (k : nat) (o : GetUserMediaOutcome)
| VideoPlays (width height : nat)      (* [playing] *)
| VideoPlayFails                       (* [play()] rejected *)
| ShutterClicked (env : CanvasEnv)
| RetryClicked
| SessionEvent (ev : App.Event)
| ResetClicked
| FlashTimerFires.

(** [startCamera()] called by the rendered instance; React commits the
    update before anything else happens. *)
Definition start_camera (u : State) : State :=
  {| app := app u; proc := proc u; session := session u; shown := shown u;
     instance := instance u;
     cam := commit (startCamera_call (cam u));
     inflight := inflight u ++ [(instance u, AwaitingPreferred)] |}.

(** The body of the effect (lines 64-66). *)
Definition camera_effect (u : State) : State :=
  if isProcessing (app u) then u else start_camera u.

(** [CameraView] after a commit of [App]: it is rendered exactly while
    [result] is falsy.  An instance that goes loses its state, and its
    cleanup finds the ref already detached; one that appears is new and
    runs its effect; one that stays runs cleanup and effect again when
    [isProcessing] has changed. *)
Definition App_rendered (before : App.State) (u : State) : State :=
  let now_shown := negb (js_truthy (result (app u))) in
  match shown u, now_shown with
  | true, false =>
      {| app := app u; proc := proc u; session := session u; shown := false;
         instance := instance u;
         cam := {| view := unmounted; device := device (cam u) |};
         inflight := inflight u |}
  | false, true =>
      camera_effect
        {| app := app u; proc := proc u; session := session u; shown := true;
           instance := S (instance u);
           cam := {| view := render unmounted; device := device (cam u) |};
           inflight := inflight u |}
  | true, true =>
      if Bool.eqb (isProcessing before) (isProcessing (app u)) then u
      else camera_effect (with_cam (effect_cleanup (cam u)) u)
  | false, false => u
  end.

(** Lines 27-32: what the resumed [handleCapture] does to [App]. *)
Definition apply_outcome (out : AnalysisOutcome) (a : App.State) : App.State :=
  match out with
  | Success data => setIsProcessing false (setResult data a)
  | Failure message => setIsProcessing false (App.setError (Some message) a)
  end.

Definition deliver (outs : list AnalysisOutcome) (u : State) : State :=
  fold_left (fun u out =>
               App_rendered (app u) (with_app (apply_outcome out (app u)) u))
    outs u.

(** The stream attached to the video element on screen still has a live
    track: only then does the element fire its events. *)
Definition video_live (u : State) : bool :=
  shown u &&
  match videoRef (view (cam u)) with
  | Some v =>
      match srcObject v with
      | Some i =>
          match streams (device (cam u)) !! i with
          | Some s => stream_live s
          | None => false
          end
      | None => false
      end
  | None => false
  end.

(** The shutter is rendered and enabled (lines 122, 216 and 220). *)
Definition shutter_enabled (u : State) : bool :=
  shown u && is_none (CameraView.error (view (cam u))) &&
  negb (isProcessing (app u)) && is_none (capturedImage (view (cam u))) &&
  streamActive (view (cam u)).

Section WithPlatform.
Context (P : Platform).

(** One event; [None] when the page cannot receive it in that state. *)
Definition step (u : State) (e : Event) : option State :=
  match e with
  | GetUserMediaSettles k o =>
      match inflight u !! k with
      | None => None
      | Some (caller, at_) =>
          let rest := delete k (inflight u) in
          let more next := match next with
                           | Some n => [(caller, n)]
                           | None => []
                           end in
          if shown u && Nat.eqb caller (instance u) then
            let '(c, next) := startCamera_resume at_ o (cam u) in
            Some {| app := app u; proc := proc u; session := session u;
                    shown := shown u; instance := instance u;
                    cam := commit c; inflight := rest ++ more next |}
          else
            (* the caller is gone: its ref is null, its updates are dropped *)
            let '(c, next) :=
              startCamera_resume at_ o
                {| view := unmounted; device := device (cam u) |} in
            Some {| app := app u; proc := proc u; session := session u;
                    shown := shown u; instance := instance u;
                    cam := {| view := view (cam u); device := device c |};
                    inflight := rest ++ more next |}
      end
  | VideoPlays width height =>
      if video_live u then Some (with_cam (video_playing width height (cam u)) u)
      else None
  | VideoPlayFails =>
      if video_live u then Some (with_cam (commit (handleVideoPlay (cam u))) u)
      else None
  | ShutterClicked env =>
      if shutter_enabled u then
        let '(c, effects) := capturePhoto (isProcessing (app u)) env (cam u) in
        let u1 := with_cam (commit c) u in
        match captures effects with
        | [] => Some u1
        | base64 :: _ =>       (* [onCapture] is called at most once *)
            let σ := handleCapture P base64 (app u) (proc u) in
            let clicked :=
              {| app := App.setError None (setIsProcessing true (app u));
                 proc := App.proc σ; session := Some σ; shown := shown u1;
                 instance := instance u1; cam := cam u1;
                 inflight := inflight u1 |} in
            Some (deliver (delivered σ) (App_rendered (app u) clicked))
        end
      else None
  | RetryClicked =>
      if shown u && negb (is_none (CameraView.error (view (cam u)))) then
        Some (start_camera (with_view (CameraView.setError None (view (cam u))) u))
      else None
  | SessionEvent ev =>
      match session u with
      | None => None
      | Some σ =>
          let σ' := App.step P σ ev in
          let outs := skipn (length (delivered σ)) (delivered σ') in
          Some (deliver outs
                  {| app := app u; proc := App.proc σ'; session := Some σ';
                     shown := shown u; instance := instance u; cam := cam u;
                     inflight := inflight u |})
      end
  | ResetClicked =>
      if shown u then None
      else Some (App_rendered (app u) (with_app (handleReset (app u)) u))
  | FlashTimerFires =>
      if shown u then Some (with_view (setIsFlashing false (view (cam u))) u)
      else None
  end.

(** The page as first rendered, its mount effect run: once, as React runs
    it outside of strict mode. *)
Definition initial (p : Process) : State :=
  camera_effect
    {| app := App.initial; proc := p; session := None; shown := true;
       instance := 0; cam := mount; inflight := [] |}.

Fixpoint run (u : State) (events : list Event) : option State :=
  match events with
  | [] => Some u
  | e :: rest =>
      match step u e with
      | Some u' => run u' rest
      | None => None
      end
  end.

End WithPlatform.

End Ui.

(** ** Orderings given by a comparator *)

Module Ordering.

(** [a] may stand before [b]: the comparator does not put it after. *)
Definition before {A} (cmp : A -> A -> Z) (a b : A) : Prop :=
  (cmp a b <= 0)%Z.

(** Neither is put after the other. *)
Definition tied {A} (cmp : A -> A -> Z) (a b : A) : bool :=
  (cmp a b <=? 0)%Z && (cmp b a <=? 0)%Z.

End Ordering.

(** ** Stand-ins for the platform, used to run the definitions *)

Module Sample.
Import GeminiService CameraView.

Definition is_space (c : ascii) : bool :=
  Ascii.eqb c " "%char || Ascii.eqb c "010"%char || Ascii.eqb c "009"%char
  || Ascii.eqb c "013"%char.

Fixpoint trim_left (s : string) : string :=
  match s with
  | String c rest => if is_space c then trim_left rest else s
  | EmptyString => EmptyString
  end.

Fixpoint trim_right (s : string) : string :=
  match s with
  | String c rest =>
      match trim_right rest with
      | EmptyString => if is_space c then EmptyString else String c EmptyString
      | kept => String c kept
      end
  | EmptyString => EmptyString
  end.

Definition ingredient : Json :=
  JObject [("name", JString "番茄"); ("info", JString "富含番茄红素");
           ("caloriesPer100g", JNumber 18)].

Definition recipe : Json :=
  JObject [("id", JString "r1"); ("name", JString "番茄沙拉");
           ("description", JString "清爽低卡"); ("difficulty", JString "简单");
           ("prepTime", JString "10分钟");
           ("allIngredients", JArray [JString "番茄"]);
           ("instructions", JArray [JString "切块"; JString "拌匀"])].

Definition document : Json :=
  JObject [("ingredients", JArray [ingredient]); ("recipes", JArray [recipe])].

Definition document_text : string := "{document}".

(** The texts V8 gives its [TypeError]s. *)
Definition engine_TypeError_message (cause : TypeErrorCause) : string :=
  match cause with
  | MessageOf Null => "Cannot read properties of null (reading 'message')"
  | MessageOf Undefined =>
      "Cannot read properties of undefined (reading 'message')"
  | IncludesNotCallable => "error.message?.includes is not a function"
  end.

(** A platform that knows two texts: the sample document and the empty
    object. *)
Definition platform : Platform :=
  {| GoogleGenAI_ctor := fun key =>
       match key with
       | Some _ => None
       | None => Some "An API Key must be set when running in a browser"
       end;
     String_trim := fun s => trim_right (trim_left s);
     JSON_parse := fun s =>
       if String.eqb s document_text then inr document
       else if String.eqb s "{}" then inr (JObject [])
       else inl "Unexpected end of JSON input";
     TypeError_message := engine_TypeError_message |}.

Definition process : Process :=
  {| API_KEY := Some "key-1"; env_reads := 0; requests := [] |}.

Definition good_canvas (dataUrl : string) : CanvasEnv :=
  {| getContext_2d := true; drawImage := None; toDataURL := inr dataUrl |}.

(** Mounted, camera granted at the first attempt, frames of 640 by 480
    arriving. *)
Definition streaming : Controller :=
  video_playing 640 480 (startCamera Grants Grants mount).

End Sample.

(** ** Stand-ins for [localStorage] and a second platform *)

Module Stored.
Import GeminiService.

Definition quote : string := String (Ascii.ascii_of_nat 34) EmptyString.

(** [JSON.stringify] for strings that need no escaping. *)
Definition stringify (l : list string) : string :=
  "[" ++ String.concat "," (map (fun s => quote ++ s ++ quote) l) ++ "]".

(** A platform that parses [null], the empty array and the array holding
    [r1] and [r2]. *)
Definition platform : Platform :=
  {| GoogleGenAI_ctor := fun _ => None;
     String_trim := fun s => s;
     JSON_parse := fun s =>
       if String.eqb s "null" then inr JNull
       else if String.eqb s "[]" then inr (JArray [])
       else if String.eqb s (stringify ["r1"; "r2"])
            then inr (JArray [JString "r1"; JString "r2"])
       else inl "Unexpected token";
     TypeError_message := Sample.engine_TypeError_message |}.

End Stored.

(** ** Sample recipes and pages *)

Module Scenario.
Import GeminiService CameraView ResultDisplay.

Definition dish (recipe level : string) : Recipe :=
  {| id := recipe; recipe_name := recipe; description := "家常做法";
     difficulty := level; prepTime := "10分钟"; allIngredients := ["番茄"];
     instructions := ["切块"]; calories := None |}.

Definition menu : list Recipe :=
  [dish "r1" "困难"; dish "r2" "简单"; dish "r3" "简单"; dish "r4" "中等"].

(** The page of [Sample.process] on [Sample.platform] after the events. *)
Definition page_after (events : list Ui.Event) : Ui.State :=
  match Ui.run Sample.platform (Ui.initial Sample.process) events with
  | Some u => u
  | None => Ui.initial Sample.process
  end.

Definition to_streaming : list Ui.Event :=
  [Ui.GetUserMediaSettles 0 Grants; Ui.VideoPlays 640 480].

Definition to_analysing : list Ui.Event :=
  to_streaming
  ++ [Ui.ShutterClicked (Sample.good_canvas "data:image/jpeg;base64,QUJD")].

Definition to_result : list Ui.Event :=
  to_analysing
  ++ [Ui.SessionEvent
        (App.AnalysisSettles (Resolves (Some Sample.document_text)))].

(** The encoder returns a data URL with nothing after the comma. *)
Definition to_still : list Ui.Event :=
  to_streaming ++ [Ui.ShutterClicked (Sample.good_canvas "data:,")].

(** The session of the last capture on a page. *)
Definition session_of (u : Ui.State) : App.Session :=
  match Ui.session u with
  | Some σ => σ
  | None => App.handleCapture Sample.platform "QUJD" (Ui.app u) (Ui.proc u)
  end.

End Scenario.

(** ** The behaviour the specification asks for, in its own words *)

Module AsSpecified.
Import GeminiService App CameraView.

(** Outcome expected of an analysis call that settles before the deadline:
    [Success] for a well-formed two-collection document, the recognition
    failure for a malformed or empty response, the network failure for a
    call that fails in transport. *)
Definition expected_outcome (P : Platform) (o : GenerateContentOutcome)
    : AnalysisOutcome :=
  match o with
  | Rejects _ | RejectsOdd => Failure network_message
  | Resolves None => Failure recognition_message
  | Resolves (Some text) =>
      if String.eqb text "" then Failure recognition_message
      else match JSON_parse P (String_trim P text) with
           | inr v => if Types.is_AnalysisResponse v then Success v
                      else Failure recognition_message
           | inl _ => Failure recognition_message
           end
  end.

Definition analysis_outcomes : Prop :=
  forall P base64Image a p settles timer_first o,
    settles_before_deadline P p settles timer_first = Some o ->
    delivered (session P base64Image a p settles timer_first)
    = [expected_outcome P o].

(** Every capture attempt in phase [Streaming] on a frame of non-zero size
    yields one image, handed to the caller, and stops the stream.  The
    canvas is taken to hand out its context and not to throw. *)
Definition capture_delivers : Prop :=
  forall c stream dataUrl,
    capture_ready c stream ->
    let '(c', effects) :=
      capturePhoto false {| getContext_2d := true; drawImage := None;
                            toDataURL := inr dataUrl |} c in
    (exists image, captures effects = [image]) /\
    device c' = stop_tracks stream (device c) /\
    capturedImage (view c') = Some dataUrl /\
    streamActive (view c') = false.

End AsSpecified.

(** ** Invariants of a session *)

Module Orchestrator.
Import GeminiService App.

(** The race is over and both of its inputs are subscribed to. *)
Definition concluded (σ : Session) : Prop :=
  is_Some (state (racePromise σ)) /\
  handled (analysisPromise σ) = true /\
  handled (timeoutPromise σ) = true.

(** Every input of the race is subscribed to, nothing has been reported,
    and the host has been told nothing while the race is open and one
    outcome once it is settled. *)
Definition orderly (σ : Session) : Prop :=
  handled (analysisPromise σ) = true /\
  handled (timeoutPromise σ) = true /\
  handled (racePromise σ) = true /\
  unhandled σ = [] /\
  match state (racePromise σ) with
  | None => delivered σ = []
  | Some _ => length (delivered σ) = 1
  end.

End Orchestrator.

(** ** What holds of the page at every moment *)

Module Page.
Import GeminiService App CameraView AppView Orchestrator.

(** The stream attached to the video element of the rendered instance. *)
Definition attached (u : Ui.State) : option nat :=
  match videoRef (view (Ui.cam u)) with
  | Some v => srcObject v
  | None => None
  end.

(** The video ref is set exactly when the JSX renders the element. *)
Definition rendered (s : CameraView.State) : Prop :=
  is_none (videoRef s)
  = negb (is_none (CameraView.error s)) || negb (is_none (capturedImage s)).

(** A call of [startCamera] by the rendered instance is waiting: the
    element on screen is new and nothing else is going on. *)
Definition waiting (u : Ui.State) : Prop :=
  Ui.shown u = true /\
  isProcessing (Ui.app u) = false /\
  streamActive (view (Ui.cam u)) = false /\
  CameraView.error (view (Ui.cam u)) = None /\
  capturedImage (view (Ui.cam u)) = None /\
  exists v, videoRef (view (Ui.cam u)) = Some v /\
            srcObject v = None /\ readyState v = 0.

Record invariant (u : Ui.State) : Prop := {
  live_attached : forall i s,
    streams (device (Ui.cam u)) !! i = Some s -> stream_live s = true ->
    Ui.shown u = true /\ attached u = Some i;
  refs_rendered :
    if Ui.shown u then rendered (view (Ui.cam u))
    else view (Ui.cam u) = unmounted;
  shown_falsy : Ui.shown u = negb (js_truthy (result (Ui.app u)));
  one_inflight :
    Ui.inflight u = [] \/
    exists at_, Ui.inflight u = [(Ui.instance u, at_)] /\ waiting u;
  active_attached :
    streamActive (view (Ui.cam u)) = true -> is_Some (attached u);
  processing_captured :
    isProcessing (Ui.app u) = true ->
    Ui.shown u = true /\ capturedImage (view (Ui.cam u)) <> None /\
    streamActive (view (Ui.cam u)) = false /\
    CameraView.error (view (Ui.cam u)) = None /\ Ui.inflight u = [];
  error_idle :
    CameraView.error (view (Ui.cam u)) <> None ->
    streamActive (view (Ui.cam u)) = false /\
    isProcessing (Ui.app u) = false;
  session_orderly :
    match Ui.session u with
    | Some σ => orderly σ /\
                (state (racePromise σ) = None ->
                 isProcessing (Ui.app u) = true)
    | None => True
    end
}.

(** The still of a capture is on screen and no analysis is running. *)
Definition frozen (u : Ui.State) : Prop :=
  Ui.shown u = true /\
  capturedImage (view (Ui.cam u)) <> None /\
  CameraView.error (view (Ui.cam u)) = None /\
  isProcessing (Ui.app u) = false.

(** States the page can be in. *)
Inductive reachable (P : Platform) (p : Process) : Ui.State -> Prop :=
| reachable_initial : reachable P p (Ui.initial p)
| reachable_step u e u' :
    reachable P p u -> Ui.step P u e = Some u' -> reachable P p u'.

End Page.

(** ** Lemmas on the orchestrator *)

Section OrchestratorFacts.
Import GeminiService App Orchestrator.
Context (P : Platform).

Lemma analyze_catch_rejects (e : Thrown) :
  exists m, analyze_catch P e = Rejected (new_Error m).
Proof.
  destruct e as [message|]; cbn; [|eauto].
  destruct (_ || _); eauto.
Qed.

Lemma analyze_settle_cases (o : GenerateContentOutcome) :
  (exists v, analyze_settle P o = Fulfilled v) \/
  (exists m, analyze_settle P o = Rejected (new_Error m)).
Proof.
  destruct o as [[text|]|e|]; unfold analyze_settle.
  - destruct (String.eqb text ""); [right; apply analyze_catch_rejects|].
    destruct (JSON_parse P _); [right; apply analyze_catch_rejects|left; eauto].
  - right. apply analyze_catch_rejects.
  - right. apply analyze_catch_rejects.
  - right. eauto.
Qed.

Lemma step_concluded (σ : Session) (ev : Event) :
  concluded σ ->
  concluded (step P σ ev) /\
  delivered (step P σ ev) = delivered σ /\
  unhandled (step P σ ev) = unhandled σ /\
  app (step P σ ev) = app σ.
Proof.
  intros (Hrace & Ha & Ht). unfold concluded.
  destruct Hrace as [s Hs].
  destruct ev as [o|]; cbn.
  - destruct (state (analysisPromise σ)); [rewrite Hs; eauto 10|].
    unfold settle_analysis, race_input_settled; cbn. rewrite Hs; cbn.
    unfold report. rewrite Ha. destruct (analyze_settle P o);
      rewrite ?app_nil_r; eauto 10.
  - destruct (state (timeoutPromise σ)); [rewrite Hs; eauto 10|].
    unfold settle_timeout, race_input_settled; cbn. rewrite Hs; cbn.
    rewrite Ht, app_nil_r. eauto 10.
Qed.


End OrchestratorFacts.


(** ** Lemmas on the device *)

Section DeviceFacts.
Import CameraView.

Lemma stopped_stream_not_live (s : MediaStream) :
  stream_live (map (fun _ => Ended) s) = false.
Proof. induction s as [|t s IH]; [done|]. cbn. exact IH. Qed.

Lemma live_after_stop (l : list MediaStream) : forall (i : nat) (s : MediaStream),
  l !! i = Some s -> stream_live s = true ->
  length (List.filter stream_live (alter (map (fun _ => Ended)) i l))
  = Nat.pred (length (List.filter stream_live l)).
Proof.
  induction l as [|x l IH]; intros i s Hi Hs; [discriminate|].
  destruct i as [|i]; cbn in Hi.
  - injection Hi as ->. cbn. rewrite stopped_stream_not_live, Hs. done.
  - cbn. specialize (IH i s Hi Hs).
    assert (0 < length (List.filter stream_live l)) as Hpos.
    { clear IH. revert i Hi. induction l as [|y l IHl]; intros i Hi; [discriminate|].
      destruct i as [|i]; cbn in Hi.
      - injection Hi as ->. cbn. rewrite Hs. cbn. lia.
      - cbn. destruct (stream_live y); cbn; [lia|]. eapply IHl, Hi. }
    destruct (stream_live x); cbn; rewrite IH; lia.
Qed.

Lemma live_streams_stop (d : Device) (i : nat) (s : MediaStream) :
  streams d !! i = Some s -> stream_live s = true ->
  live_streams (stop_tracks i d) = Nat.pred (live_streams d).
Proof. intros Hi Hs. unfold live_streams, stop_tracks; cbn. eapply live_after_stop; eauto. Qed.

Lemma stop_tracks_lookup (d : Device) (i : nat) (s : MediaStream) :
  streams (stop_tracks i d) !! i = Some s -> stream_live s = false.
Proof.
  unfold stop_tracks; cbn. intros H.
  rewrite list_lookup_alter_eq in H.
  destruct (streams d !! i) as [s0|]; cbn in H; [|discriminate].
  injection H as <-. apply stopped_stream_not_live.
Qed.

Lemma live_streams_grant (d : Device) :
  live_streams (fst (getUserMedia_settle Grants d)) = S (live_streams d).
Proof.
  unfold live_streams; cbn. rewrite List.filter_app, length_app. cbn. lia.
Qed.

Lemma startCamera_device (o1 o2 : GetUserMediaOutcome) (c : Controller) :
  device (startCamera o1 o2 c) =
  match o1, o2 with
  | Grants, _ =>
      {| streams := streams (device c) ++ [[Live]];
         requested := requested (device c) ++ [preferred_constraints];
         pending := pending (device c) |}
  | Refuses _, Grants =>
      {| streams := streams (device c) ++ [[Live]];
         requested := (requested (device c) ++ [preferred_constraints])
                      ++ [minimal_constraints];
         pending := pending (device c) |}
  | Refuses _, Refuses _ =>
      {| streams := streams (device c);
         requested := (requested (device c) ++ [preferred_constraints])
                      ++ [minimal_constraints];
         pending := pending (device c) |}
  end.
Proof. destruct o1, o2; reflexivity. Qed.

Lemma startCamera_live (o1 o2 : GetUserMediaOutcome) (c : Controller) :
  live_streams (device (startCamera o1 o2 c)) <= S (live_streams (device c)).
Proof.
  rewrite startCamera_device. unfold live_streams.
  destruct o1, o2; cbn; rewrite ?List.filter_app, ?length_app; cbn; lia.
Qed.

End DeviceFacts.

(** ** The orchestrator: one session of [handleCapture] *)

Section SessionFacts.
Import GeminiService App Orchestrator.
Context (P : Platform).

(** What a session delivers, in every schedule, and the component it
    leaves behind. *)
Lemma session_summary (base64Image : string) (a : State) (p : Process)
    (settles : option (N * GenerateContentOutcome)) (timer_first : bool) :
  let σ := session P base64Image a p settles timer_first in
  concluded σ /\ unhandled σ = [] /\
  exists out,
    delivered σ = [out] /\
    app σ = match out with
            | Success v =>
                {| isProcessing := false; result := v; error := None |}
            | Failure m =>
                {| isProcessing := false; result := result a;
                   error := Some m |}
            end /\
    out = match GoogleGenAI_ctor P (API_KEY p) with
          | Some msg => Failure (or_else (Some msg) fallback_message)
          | None =>
              match settles_before_deadline P p settles timer_first with
              | Some o =>
                  match analyze_settle P o with
                  | Fulfilled v => Success v
                  | Rejected (ErrorObj m) => Failure (or_else m fallback_message)
                  | Rejected (Bare _) => Failure fallback_message
                  end
              | None => Failure timeout_message
              end
          end.
Proof.
  unfold session, handleCapture, analyze_call, settles_before_deadline,
    schedule, concluded.
  destruct (GoogleGenAI_ctor P (API_KEY p)) as [msg|].
  - destruct settles as [[t o]|]; cbn;
      repeat (match goal with
              | |- context [if ?b then _ else _] => destruct b
              end; cbn);
      eauto 10.
  - destruct settles as [[t o]|]; cbn; [|eauto 10].
    destruct (N.ltb_spec t deadlineMillis) as [Hlt|Hge]; cbn.
    + destruct (analyze_settle_cases P o) as [[v ->]|[m ->]]; cbn; eauto 10.
    + destruct (N.ltb_spec deadlineMillis t) as [Hgt|Hle]; cbn.
      * assert (N.eqb t deadlineMillis = false) as ->
          by (apply N.eqb_neq; lia).
        cbn. destruct (analyze_settle_cases P o) as [[v ->]|[m ->]]; cbn;
          eauto 10.
      * assert (N.eqb t deadlineMillis = true) as ->
          by (apply N.eqb_eq; lia).
        destruct timer_first; cbn;
          destruct (analyze_settle_cases P o) as [[v ->]|[m ->]]; cbn;
          eauto 10.
Qed.


Lemma settled_ctor_ok (p : Process)
    (settles : option (N * GenerateContentOutcome)) (timer_first : bool)
    (o : GenerateContentOutcome) :
  settles_before_deadline P p settles timer_first = Some o ->
  GoogleGenAI_ctor P (API_KEY p) = None.
Proof.
  unfold settles_before_deadline.
  destruct (GoogleGenAI_ctor P (API_KEY p)); [discriminate|done].
Qed.

End SessionFacts.

Section TraceFacts.
Import GeminiService App Orchestrator.
Context (P : Platform).

Lemma race_input_orderly (s : Settlement Json) (σ : Session) :
  orderly σ ->
  (exists v, s = Fulfilled v) \/ (exists m, s = Rejected (new_Error m)) ->
  orderly (race_input_settled P s σ) /\
  is_Some (state (racePromise (race_input_settled P s σ))).
Proof.
  intros (Ha & Ht & Hr & Hu & Hd) Hs. unfold race_input_settled, orderly.
  destruct (state (racePromise σ)) as [s0|] eqn:E.
  - rewrite E. eauto 10.
  - destruct Hs as [[v ->]|[m ->]]; cbn; rewrite Hu, Hd, ?Hr; cbn; eauto 10.
Qed.

Lemma handleCapture_orderly (base64Image : string) (a : State) (p : Process) :
  orderly (handleCapture P base64Image a p).
Proof.
  unfold handleCapture, analyze_call.
  destruct (GoogleGenAI_ctor P (API_KEY p)) as [msg|]; cbn.
  - unfold orderly; cbn. eauto 10.
  - unfold orderly; cbn. eauto 10.
Qed.

Lemma step_orderly (σ : Session) (ev : Event) :
  orderly σ -> orderly (step P σ ev).
Proof.
  intros Hσ. destruct ev as [o|]; cbn.
  - destruct (state (analysisPromise σ)) eqn:E; [exact Hσ|].
    unfold settle_analysis.
    apply race_input_orderly; [|apply analyze_settle_cases].
    destruct Hσ as (Ha & Ht & Hr & Hu & Hd). unfold orderly; cbn.
    unfold report. rewrite Ha, Hu.
    destruct (analyze_settle P o); cbn; eauto 10.
  - destruct (state (timeoutPromise σ)) eqn:E; [exact Hσ|].
    unfold settle_timeout.
    apply race_input_orderly; [|right; eauto].
    destruct Hσ as (Ha & Ht & Hr & Hu & Hd). unfold orderly; cbn.
    rewrite Ht, Hu. cbn; eauto 10.
Qed.

(** Whatever the loop dispatches, in whatever order and however often, the
    host is told at most one outcome and nothing goes unhandled. *)
Lemma any_trace_at_most_one_outcome (base64Image : string) (a : State)
    (p : Process) (evs : list Event) :
  length (delivered (run P (handleCapture P base64Image a p) evs)) <= 1 /\
  unhandled (run P (handleCapture P base64Image a p) evs) = [].
Proof.
  assert (forall σ, orderly σ -> orderly (run P σ evs)) as Hrun.
  { induction evs as [|ev evs IH]; intros σ Hσ; [exact Hσ|].
    apply (IH (step P σ ev)), step_orderly, Hσ. }
  destruct (Hrun _ (handleCapture_orderly base64Image a p))
    as (_ & _ & _ & Hu & Hd).
  split; [|exact Hu].
  destruct (state (racePromise _)); [lia|]. rewrite Hd. cbn. lia.
Qed.

End TraceFacts.

(** ** Claims on the orchestrator *)

Section OrchestratorClaims.
Import GeminiService App Orchestrator.



(** C7.  When the analysis call answers before the deadline with a text
    that parses into a valid two-collection document, the host is told
    [Success] with exactly the parsed document, which is also what the
    result cell then holds. *)
Theorem valid_document_passed_through
    (P : Platform) (base64Image : string) (a : State) (p : Process)
    (settles : option (N * GenerateContentOutcome)) (timer_first : bool)
    (text : string) (document : Json) :
  settles_before_deadline P p settles timer_first
  = Some (Resolves (Some text)) ->
  text <> "" ->
  JSON_parse P (String_trim P text) = inr document ->
  Types.is_AnalysisResponse document = true ->
  let σ := session P base64Image a p settles timer_first in
  delivered σ = [Success document] /\
  result (app σ) = document /\
  error (app σ) = None /\
  isProcessing (app σ) = false.
Proof.
  intros Hs Htext Hparse _ σ.
  destruct (session_summary P base64Image a p settles timer_first)
    as (_ & _ & out & Hd & Ha & Hout).
  fold σ in Hd, Ha.
  rewrite (settled_ctor_ok P _ _ _ _ Hs), Hs in Hout. cbn in Hout.
  apply String.eqb_neq in Htext. rewrite Htext, Hparse in Hout.
  subst out. rewrite Hd, Ha. done.
Qed.

Lemma valid_document_witness :
  delivered (session Sample.platform "QUJD" initial Sample.process
               (Some (1200%N, Resolves (Some " {document} "))) false)
  = [Success Sample.document].
Proof.
  apply (valid_document_passed_through Sample.platform "QUJD" initial
           Sample.process (Some (1200%N, Resolves (Some " {document} ")))
           false " {document} " Sample.document);
    [reflexivity | discriminate | reflexivity | reflexivity].
Defined.

(** C8.  Each invocation of the analysis function reads the API key from
    the process environment once, and the request it sends carries the key
    read by that invocation: with the variable changed between two
    invocations, the first request carries the old key and the second the
    new one.  (An invocation whose key the SDK constructor refuses sends
    nothing.) *)
Theorem api_key_read_per_invocation
    (P : Platform) (image1 image2 : string) (p : Process)
    (rotated : option string) :
  let p1 := fst (analyze_call P image1 p) in
  let p2 := fst (analyze_call P image2 (set_API_KEY rotated p1)) in
  env_reads p1 = S (env_reads p) /\
  env_reads p2 = S (env_reads p1) /\
  map req_apiKey (requests p1)
  = (map req_apiKey (requests p)
     ++ match GoogleGenAI_ctor P (API_KEY p) with
        | None => [API_KEY p]
        | Some _ => []
        end)%list /\
  map req_apiKey (requests p2)
  = (map req_apiKey (requests p1)
     ++ match GoogleGenAI_ctor P rotated with
        | None => [rotated]
        | Some _ => []
        end)%list.
Proof.
  unfold analyze_call, set_API_KEY; cbn.
  destruct (GoogleGenAI_ctor P (API_KEY p)); cbn;
    destruct (GoogleGenAI_ctor P rotated); cbn;
    rewrite ?map_app, ?app_nil_r; done.
Qed.

End OrchestratorClaims.

Section OutcomeClassification.
Import GeminiService App AppView Orchestrator.

(** C4, as the specification words it, fails: the empty JSON object is not
    a two-collection document, yet the text [{}] parses and the host is
    told [Success] with it, where a recognition failure is expected. *)
Lemma analysis_outcomes_refuted : ~ AsSpecified.analysis_outcomes.
Proof.
  intros H.
  specialize (H Sample.platform "QUJD" initial Sample.process
                (Some (1200%N, Resolves (Some "{}"))) false
                (Resolves (Some "{}")) eq_refl).
  vm_compute in H. discriminate H.
Qed.

(** What becomes of that value: [handleCapture] stores it, [App] takes the
    branch of line 46 that renders [ResultDisplay], and the first memo of
    [ResultDisplay] throws on it. *)
Example unchecked_document_breaks_ResultDisplay :
  let σ := session Sample.platform "QUJD" initial Sample.process
             (Some (1200%N, Resolves (Some "{}"))) false in
  delivered σ = [Success (JObject [])] /\
  Types.is_AnalysisResponse (JObject []) = false /\
  result (app σ) = JObject [] /\
  screen (app σ) = ResultScreen /\
  ResultDisplay.counts_throws (result (app σ)) = true.
Proof. vm_compute. repeat split. Qed.

(** A call that fails in transport with a message the [catch] block does
    not look for is reported as a recognition failure. *)
Example fetch_failure_reported_as_recognition :
  delivered (session Sample.platform "QUJD" initial Sample.process
               (Some (1200%N, Rejects (new_Error "Failed to fetch"))) false)
  = [Failure recognition_message].
Proof. reflexivity. Qed.

(** C4.  What the code does with an analysis call that settles before the
    deadline, case by case.  In every case the host is told exactly one
    outcome and the session leaves no rejection unhandled.  A non-empty
    text that [JSON.parse] accepts gives [Success] with the parsed value,
    which is not checked against the interface.  An absent or empty text
    gives the failure with the recognition message.  An unparseable text,
    and a call rejected with a reason whose message is a string, give the
    failure with the network message when the message of the error
    contains [xhr error] or [500], and the one with the recognition
    message otherwise; a reason without a message gives the recognition
    message.  A call rejected with [null] or [undefined], or with a reason
    whose message has no [includes], makes line 391 throw, and the host is
    told a failure with the text of that [TypeError]. *)
Theorem analysis_outcome_classified
    (P : Platform) (base64Image : string) (a : State) (p : Process)
    (settles : option (N * GenerateContentOutcome)) (timer_first : bool)
    (o : GenerateContentOutcome) :
  settles_before_deadline P p settles timer_first = Some o ->
  let σ := session P base64Image a p settles timer_first in
  length (delivered σ) = 1 /\
  unhandled σ = [] /\
  recognition_message = "识别食材失败，请确保图片清晰并重试。" /\
  network_message = "网络请求失败，请检查网络或重试。" /\
  (forall text v,
     o = Resolves (Some text) -> text <> "" ->
     JSON_parse P (String_trim P text) = inr v ->
     delivered σ = [Success v] /\ result (app σ) = v) /\
  (o = Resolves None \/ o = Resolves (Some "") ->
   delivered σ = [Failure recognition_message]) /\
  (forall msg,
     o = Rejects (ErrorObj (Some msg)) \/
     (exists text, o = Resolves (Some text) /\ text <> "" /\
                   JSON_parse P (String_trim P text) = inl msg) ->
     delivered σ =
       [Failure (if includes msg "xhr error" || includes msg "500"
                 then network_message else recognition_message)]) /\
  (o = Rejects (ErrorObj None) ->
   delivered σ = [Failure recognition_message]) /\
  (forall n,
     o = Rejects (Bare n) ->
     delivered σ
     = [Failure (or_else (Some (TypeError_message P (MessageOf n)))
                   fallback_message)]) /\
  (o = RejectsOdd ->
   delivered σ
   = [Failure (or_else (Some (TypeError_message P IncludesNotCallable))
                 fallback_message)]).
Proof.
  intros Hs σ.
  destruct (session_summary P base64Image a p settles timer_first)
    as (_ & Hu & out & Hd & Ha & Hout).
  fold σ in Hu, Hd, Ha.
  rewrite (settled_ctor_ok P _ _ _ _ Hs), Hs in Hout.
  split; [by rewrite Hd|]. split; [exact Hu|].
  split; [reflexivity|]. split; [reflexivity|].
  rewrite Hd, Ha. subst out.
  split; [|split; [|split; [|split; [|split]]]].
  - intros text v -> Htext Hparse. cbn.
    apply String.eqb_neq in Htext. by rewrite Htext, Hparse.
  - intros [-> | ->]; reflexivity.
  - intros msg [-> | (text & -> & Htext & Hparse)]; cbn.
    + destruct (includes msg "xhr error" || includes msg "500"); reflexivity.
    + apply String.eqb_neq in Htext. rewrite Htext, Hparse. cbn.
      destruct (includes msg "xhr error" || includes msg "500"); reflexivity.
  - intros ->. reflexivity.
  - intros n ->. reflexivity.
  - intros ->. reflexivity.
Qed.

Lemma analysis_outcome_classified_witness :
  settles_before_deadline Sample.platform Sample.process
    (Some (1200%N, Resolves (Some "{}"))) false
  = Some (Resolves (Some "{}")) /\
  Types.is_AnalysisResponse (JObject []) = false /\
  delivered (session Sample.platform "QUJD" initial Sample.process
               (Some (1200%N, Resolves (Some "{}"))) false)
  = [Success (JObject [])] /\
  result (app (session Sample.platform "QUJD" initial Sample.process
                 (Some (1200%N, Resolves (Some "{}"))) false))
  = JObject [].
Proof.
  split; [reflexivity|]. split; [reflexivity|].
  pose proof (analysis_outcome_classified Sample.platform "QUJD" initial
                Sample.process
                (Some (1200%N, Resolves (Some "{}"))) false
                (Resolves (Some "{}")) eq_refl)
    as (_ & _ & _ & _ & Hparsed & _).
  apply (Hparsed "{}" (JObject [])); [reflexivity|discriminate|reflexivity].
Defined.

End OutcomeClassification.

(** ** Claims on the camera controller: [startCamera] *)

Section StartCameraClaims.
Import CameraView.

Lemma attach_keeps_image (stream : nat) (s : State) :
  capturedImage (attach stream s) = capturedImage s.
Proof.
  unfold attach. destruct (videoRef s) as [v|]; [|reflexivity].
  cbn. destruct (readyState v) as [|[|n]]; reflexivity.
Qed.

Lemma attach_clears_error (stream : nat) (s : State) :
  error (attach stream s) = None.
Proof. reflexivity. Qed.

(** C6.  A call of [startCamera] first asks for a video-only stream with
    the rear camera and 1920 by 1080 as ideals; when that request is
    refused it asks once more, for any video and no audio, and asks nothing
    further.  Exactly when both requests were refused, the error cell is
    set, to the one message of line 59 whatever the reasons given: it is
    not empty, so the error panel with that text takes the place of the
    viewfinder, and no stream has been acquired.  In every other case the
    error cell is cleared. *)
Theorem startCamera_preferred_then_minimal
    (o1 o2 : GetUserMediaOutcome) (c : Controller) :
  let c' := startCamera o1 o2 c in
  requested (device c')
  = (requested (device c)
     ++ match o1 with
        | Grants => [preferred_constraints]
        | Refuses _ => [preferred_constraints; minimal_constraints]
        end)%list /\
  preferred_constraints
  = {| video := VideoIdeal "environment" 1920 1080; audio := false |} /\
  minimal_constraints = {| video := VideoTrue; audio := false |} /\
  error (view c')
  = match o1, o2 with
    | Refuses _, Refuses _ => Some "无法访问摄像头。请检查权限设置。"
    | _, _ => None
    end /\
  truthy (error (view c'))
  = match o1, o2 with
    | Refuses _, Refuses _ => true
    | _, _ => false
    end /\
  (forall e1 e2, o1 = Refuses e1 -> o2 = Refuses e2 ->
     videoRef (view c') = None /\
     streams (device c') = streams (device c)).
Proof.
  intros c'. subst c'. rewrite startCamera_device.
  destruct o1 as [|e1], o2 as [|e2]; cbn; rewrite <- ?app_assoc;
    repeat split; try done.
Qed.

(** C9.  Entering [startCamera] clears the stored still image, whatever it
    held; neither continuation of the call writes it, so it is still clear
    when the call completes. *)
Theorem startCamera_voids_still_image (c : Controller) :
  capturedImage (view (startCamera_call c)) = None /\
  (forall at_ o c0,
     capturedImage (view (fst (startCamera_resume at_ o c0)))
     = capturedImage (view c0)) /\
  (forall o1 o2, capturedImage (view (startCamera o1 o2 c)) = None).
Proof.
  split; [reflexivity|]. split.
  - intros at_ o c0.
    destruct at_, o; cbn -[attach]; rewrite ?attach_keeps_image; done.
  - intros o1 o2.
    destruct o1, o2; cbn -[attach]; rewrite ?attach_keeps_image; done.
Qed.

(** [startCamera] itself tests nothing before it asks for a stream.
    Called directly on a controller that is streaming, which the component
    never does (its calls are the effect of line 65 and the retry button
    of line 132), it would obtain a second stream and leave the first one
    live. *)
Example startCamera_while_streaming :
  phase_of Sample.streaming = Streaming /\
  live_streams (device Sample.streaming) = 1 /\
  live_streams (device (startCamera Grants Grants Sample.streaming)) = 2 /\
  startCamera Grants Grants Sample.streaming <> Sample.streaming.
Proof. repeat split; try reflexivity. discriminate. Qed.

Example startCamera_call_while_requesting :
  phase_of (startCamera_call mount) = Requesting /\
  pending (device (startCamera_call (startCamera_call mount))) = 2.
Proof. split; reflexivity. Qed.

End StartCameraClaims.

(** ** Claims on the camera controller: [capturePhoto] *)

Section CapturePhotoClaims.
Import CameraView.

Lemma streaming_is_active (c : Controller) :
  phase_of c = Streaming <-> streamActive (view c) = true.
Proof.
  unfold phase_of. destruct (streamActive (view c)); [done|].
  split; [|discriminate].
  destruct (is_none (capturedImage (view c))), (is_none (error (view c))),
    (Nat.ltb 0 (pending (device c))); discriminate.
Qed.

(** What a capture does once every guard of lines 76-94 is passed and the
    canvas does not throw. *)
Lemma capturePhoto_passes (env : CanvasEnv) (c : Controller) (stream : nat)
    (dataUrl : string) :
  capture_ready c stream ->
  getContext_2d env = true -> drawImage env = None ->
  toDataURL env = inr dataUrl ->
  exists video,
    videoRef (view c) = Some video /\
    capturePhoto false env c
    = ({| view :=
            setStreamActive false
              (setCapturedImage (Some dataUrl)
                 (set_canvasRef
                    (Some {| canvas_width := videoWidth video;
                             canvas_height := videoHeight video |})
                    (setIsFlashing true (view c))));
          device := stop_tracks stream (device c) |},
       match nth_error (split comma dataUrl) 1 with
       | Some b => if String.eqb b "" then [FlashOffAfter 150]
                   else [FlashOffAfter 150; OnCapture b]
       | None => [FlashOffAfter 150]
       end).
Proof.
  intros (Hphase & video & canvas & Hv & Hc & Hsrc & Hw & Hh) Hctx Hdraw Hurl.
  apply streaming_is_active in Hphase.
  exists video. split; [exact Hv|].
  unfold capturePhoto. rewrite Hv, Hc, Hphase, Hctx, Hdraw, Hurl, Hsrc.
  apply Nat.eqb_neq in Hw, Hh. rewrite Hw, Hh. cbn -[nth_error split].
  destruct (nth_error (split comma dataUrl) 1) as [b|]; [|reflexivity].
  cbn. destruct (String.eqb b ""); reflexivity.
Qed.

(** C2 fails on the code: when the encoder returns a data URL with
    nothing after the comma, the still is stored and the stream stopped,
    but the guard of line 103 keeps it from the caller. *)
Lemma capture_delivers_refuted : ~ AsSpecified.capture_delivers.
Proof.
  intros H.
  assert (capture_ready Sample.streaming 0) as Hready.
  { split; [reflexivity|]. do 2 eexists. repeat split; cbn; discriminate. }
  specialize (H Sample.streaming 0 "data:," Hready).
  vm_compute in H. destruct H as [[image Himage] _]. discriminate Himage.
Qed.

(** The other guards on the way: a parent that is processing, and a canvas
    without a 2D context. *)
Example capture_while_processing :
  capturePhoto true (Sample.good_canvas "data:image/jpeg;base64,QUJD")
    Sample.streaming
  = (Sample.streaming, []).
Proof. reflexivity. Qed.

Example capture_without_context :
  captures (snd (capturePhoto false
                   {| getContext_2d := false; drawImage := None;
                      toDataURL := inr "data:image/jpeg;base64,QUJD" |}
                   Sample.streaming)) = [] /\
  device (fst (capturePhoto false
                 {| getContext_2d := false; drawImage := None;
                    toDataURL := inr "data:image/jpeg;base64,QUJD" |}
                 Sample.streaming)) = device Sample.streaming.
Proof. split; reflexivity. Qed.

(** C2.  What [capturePhoto] does on a capture attempt made while the
    parent is not processing, in phase [Streaming] with both elements
    mounted and the stream attached, on a frame of non-zero size, when the
    canvas hands out a 2D context, neither drawing nor encoding throws and
    the data URL returned is not the empty string.  The data URL is stored
    as the still image, every track of the attached stream is stopped and
    [streamActive] is cleared, so the phase is [Captured] and, if no other
    stream was live, none is live afterwards.  When the data URL has a
    payload after its first comma, that payload is handed to the caller
    exactly once, as the specification asks.  When it has none (as [data:,], what a
    canvas returns that cannot be encoded) all of the above still happens
    but [onCapture] is not called: the page is left with a still on screen
    and no session. *)
Theorem capturePhoto_stores_stops_and_delivers
    (env : CanvasEnv) (c : Controller) (stream : nat) (dataUrl : string) :
  capture_ready c stream ->
  getContext_2d env = true -> drawImage env = None ->
  toDataURL env = inr dataUrl -> dataUrl <> "" ->
  let c' := fst (capturePhoto false env c) in
  let effects := snd (capturePhoto false env c) in
  capturedImage (view c') = Some dataUrl /\
  device c' = stop_tracks stream (device c) /\
  (forall s, streams (device c') !! stream = Some s -> stream_live s = false) /\
  streamActive (view c') = false /\
  phase_of c' = Captured /\
  (live_streams (device c) <= 1 ->
   (exists s, streams (device c) !! stream = Some s /\ stream_live s = true) ->
   live_streams (device c') = 0) /\
  (forall b, nth_error (split comma dataUrl) 1 = Some b -> b <> "" ->
             captures effects = [b]) /\
  (nth_error (split comma dataUrl) 1 = None \/
   nth_error (split comma dataUrl) 1 = Some "" ->
   captures effects = []).
Proof.
  intros Hready Hctx Hdraw Hurl _.
  destruct (capturePhoto_passes env c stream dataUrl Hready Hctx Hdraw Hurl)
    as (video & Hv & ->).
  cbn [fst snd view device]. repeat split.
  - intros s. apply stop_tracks_lookup.
  - intros Hle (s & Hs & Hlive).
    rewrite (live_streams_stop _ _ _ Hs Hlive). lia.
  - intros b -> Hb. apply String.eqb_neq in Hb. rewrite Hb. reflexivity.
  - intros [-> | ->]; reflexivity.
Qed.

(** The theorem at a data URL with a payload, and at [data:,]. *)
Lemma capturePhoto_witness :
  capture_ready Sample.streaming 0 /\
  captures (snd (capturePhoto false
                   (Sample.good_canvas "data:image/jpeg;base64,QUJD")
                   Sample.streaming)) = ["QUJD"] /\
  live_streams (device (fst (capturePhoto false
                   (Sample.good_canvas "data:image/jpeg;base64,QUJD")
                   Sample.streaming))) = 0 /\
  capturedImage (view (fst (capturePhoto false (Sample.good_canvas "data:,")
                              Sample.streaming))) = Some "data:," /\
  phase_of (fst (capturePhoto false (Sample.good_canvas "data:,")
                   Sample.streaming)) = Captured /\
  live_streams (device (fst (capturePhoto false (Sample.good_canvas "data:,")
                               Sample.streaming))) = 0 /\
  captures (snd (capturePhoto false (Sample.good_canvas "data:,")
                   Sample.streaming)) = [].
Proof.
  assert (capture_ready Sample.streaming 0) as Hready.
  { split; [reflexivity|]. do 2 eexists. repeat split; cbn; discriminate. }
  assert (live_streams (device Sample.streaming) <= 1) as Hone
    by (vm_compute; lia).
  assert (exists s, streams (device Sample.streaming) !! 0 = Some s /\
                    stream_live s = true) as Hlive
    by (exists [Live]; split; reflexivity).
  split; [exact Hready|].
  pose proof (capturePhoto_stores_stops_and_delivers
                (Sample.good_canvas "data:image/jpeg;base64,QUJD")
                Sample.streaming 0 "data:image/jpeg;base64,QUJD"
                Hready eq_refl eq_refl eq_refl ltac:(discriminate))
    as (_ & _ & _ & _ & _ & Hnone & Hpayload & _).
  pose proof (capturePhoto_stores_stops_and_delivers
                (Sample.good_canvas "data:,") Sample.streaming 0 "data:,"
                Hready eq_refl eq_refl eq_refl ltac:(discriminate))
    as (Hstill & _ & _ & _ & Hphase & Hnone' & _ & Hempty).
  split; [apply (Hpayload "QUJD"); [reflexivity | discriminate]|].
  split; [by apply Hnone|].
  split; [exact Hstill|]. split; [exact Hphase|].
  split; [by apply Hnone'|].
  apply Hempty. right. reflexivity.
Defined.

End CapturePhotoClaims.

Section CaptureGuards.
Import CameraView.

(** Once React has committed a state that shows the error panel or the
    captured still, the video element is gone and a capture attempt does
    nothing, whatever [streamActive] says. *)
Lemma capturePhoto_noop_without_video
    (isProcessing : bool) (env : CanvasEnv) (c : Controller) :
  error (view c) <> None \/ capturedImage (view c) <> None ->
  capturePhoto isProcessing env (commit c) = (commit c, []).
Proof.
  intros H. unfold capturePhoto.
  destruct isProcessing; [reflexivity|].
  assert (videoRef (view (commit c)) = None) as ->; [|reflexivity].
  cbn. destruct (error (view c)), (capturedImage (view c)); cbn;
    try reflexivity.
  destruct H as [H | H]; by contradict H.
Qed.

(** C3.  A capture attempt made in any phase other than [Streaming], or on
    a frame without pixels, changes nothing: the component and the device
    are as before, no still is stored, [onCapture] is not called, and the
    call returns normally. *)
Theorem capturePhoto_noop_unless_streaming
    (isProcessing : bool) (env : CanvasEnv) (c : Controller) :
  phase_of c <> Streaming \/ frame_empty c ->
  capturePhoto isProcessing env c = (c, []).
Proof.
  intros H. unfold capturePhoto.
  destruct isProcessing; [reflexivity|].
  destruct (videoRef (view c)) as [video|] eqn:Hv; [|reflexivity].
  destruct (canvasRef (view c)) as [canvas|]; [|reflexivity].
  destruct (streamActive (view c)) eqn:Hactive; [|reflexivity].
  destruct H as [Hphase | (video' & Hv' & Hzero)].
  - contradict Hphase. by apply streaming_is_active.
  - rewrite Hv in Hv'. injection Hv' as <-.
    destruct Hzero as [-> | ->]; cbn; rewrite ?orb_true_r; reflexivity.
Qed.

Lemma capturePhoto_noop_witness :
  phase_of (startCamera_call mount) <> Streaming /\
  capturePhoto false (Sample.good_canvas "data:image/jpeg;base64,QUJD")
    (startCamera_call mount)
  = (startCamera_call mount, []).
Proof.
  split; [discriminate|].
  apply (capturePhoto_noop_unless_streaming false
           (Sample.good_canvas "data:image/jpeg;base64,QUJD")
           (startCamera_call mount)).
  left. discriminate.
Defined.

(** C10.  When drawing the frame or encoding it throws, the call swallows
    the error: the stored still, the error cell, [streamActive], the video
    element and the device (so every track) are as before, [onCapture] is
    not called, the phase is what it was, and a further attempt behaves as
    it would have from the state before.  (Only the flash and the size of
    the canvas were set on the way.) *)
Theorem capturePhoto_throw_leaves_session
    (isProcessing : bool) (env : CanvasEnv) (c : Controller) (e : Thrown) :
  drawImage env = Some e \/ (drawImage env = None /\ toDataURL env = inl e) ->
  let c' := fst (capturePhoto isProcessing env c) in
  let effects := snd (capturePhoto isProcessing env c) in
  capturedImage (view c') = capturedImage (view c) /\
  captures effects = [] /\
  device c' = device c /\
  streamActive (view c') = streamActive (view c) /\
  videoRef (view c') = videoRef (view c) /\
  error (view c') = error (view c) /\
  phase_of c' = phase_of c /\
  (forall again, capturePhoto isProcessing again c'
                 = capturePhoto isProcessing again c).
Proof.
  intros H. unfold capturePhoto at 1 2.
  destruct isProcessing; [done|].
  destruct (videoRef (view c)) as [video|] eqn:Hv; [|done].
  destruct (canvasRef (view c)) as [canvas|] eqn:Hc; [|done].
  destruct (streamActive (view c)) eqn:Hactive; [|done].
  destruct (Nat.eqb (videoWidth video) 0 || Nat.eqb (videoHeight video) 0)
    eqn:Hsize; [done|].
  destruct (negb (getContext_2d env));
    [| destruct H as [-> | [-> ->]] ];
    cbn [fst snd view device];
    repeat match goal with |- _ /\ _ => split end;
    try reflexivity;
    try (unfold phase_of; cbn; by rewrite Hactive);
    first [ cbn; exact Hv
          | intros again; unfold capturePhoto; cbn;
            rewrite Hv, Hc, Hactive, Hsize; reflexivity ].
Qed.

Lemma capturePhoto_throw_witness :
  let env := {| getContext_2d := true; drawImage := None;
                toDataURL := inl (new_Error "SecurityError") |} in
  fst (capturePhoto false env Sample.streaming)
  = {| view := set_canvasRef
                 (Some {| canvas_width := 640; canvas_height := 480 |})
                 (setIsFlashing true (view Sample.streaming));
       device := device Sample.streaming |} /\
  phase_of (fst (capturePhoto false env Sample.streaming)) = Streaming /\
  captures (snd (capturePhoto false env Sample.streaming)) = [].
Proof.
  intros env.
  pose proof (capturePhoto_throw_leaves_session false env Sample.streaming
                (new_Error "SecurityError") (or_intror (conj eq_refl eq_refl)))
    as (_ & Hnone & _ & _ & _ & _ & Hphase & _).
  split; [reflexivity|]. split; [exact Hphase | exact Hnone].
Defined.

End CaptureGuards.


(** ** One round through the pipeline *)

Section Round.
Import GeminiService App CameraView.

(** Streaming, a capture, an analysis that fails in transport, and the
    camera started again: the payload reaches [handleCapture] once, the
    host is told one failure, and one stream is live at the end. *)
Example capture_analyse_restart :
  let shot := capturePhoto false
                (Sample.good_canvas "data:image/jpeg;base64,QUJD")
                Sample.streaming in
  let σ := session Sample.platform "QUJD" initial Sample.process
             (Some (800%N, Rejects (new_Error "xhr error"))) false in
  let again := video_playing 640 480 (startCamera Grants Grants (fst shot)) in
  captures (snd shot) = ["QUJD"] /\
  phase_of (fst shot) = Captured /\
  live_streams (device (fst shot)) = 0 /\
  map req_data (requests (proc σ)) = ["QUJD"] /\
  delivered σ = [Failure network_message] /\
  isProcessing (app σ) = false /\
  phase_of again = Streaming /\
  capturedImage (view again) = None /\
  live_streams (device again) = 1.
Proof. vm_compute. repeat split. Qed.

End Round.

(** ** ResultDisplay: the favourites *)

Section FavoriteFacts.
Import Js ResultDisplay.

Lemma Array_includes_In (x : string) (l : list string) :
  Array_includes x l = true <-> In x l.
Proof.
  unfold Array_includes. rewrite existsb_exists. split.
  - intros (y & Hy & Heq). apply String.eqb_eq in Heq. by subst.
  - intros H. exists x. split; [done|]. apply String.eqb_refl.
Qed.

Lemma Array_includes_app (x : string) (l1 l2 : list string) :
  Array_includes x (l1 ++ l2) = Array_includes x l1 || Array_includes x l2.
Proof. apply existsb_app. Qed.

Lemma Array_includes_filter_ne (x y : string) (l : list string) :
  Array_includes x (List.filter (fun f => negb (String.eqb f y)) l)
  = negb (String.eqb x y) && Array_includes x l.
Proof.
  unfold Array_includes.
  induction l as [|z l IH]; cbn [List.filter existsb];
    [by rewrite andb_false_r|].
  destruct (String.eqb_spec z y) as [->|Hzy]; cbn [negb existsb].
  - rewrite IH. destruct (String.eqb_spec x y) as [->|Hxy]; [done|]. done.
  - rewrite IH. destruct (String.eqb_spec x z) as [->|Hxz]; cbn [orb].
    + apply String.eqb_neq in Hzy as ->. done.
    + done.
Qed.

(** X1 ([toggleFavorite], ResultDisplay.tsx 66-71).  A click on the heart
    of a recipe flips whether that recipe is a favourite and changes this
    for no other recipe. *)
Theorem toggleFavorite_flips_membership (recipe x : string) (prev : list string) :
  Array_includes x (toggleFavorite recipe prev)
  = if String.eqb x recipe then negb (Array_includes recipe prev)
    else Array_includes x prev.
Proof.
  unfold toggleFavorite.
  destruct (Array_includes recipe prev) eqn:E.
  - rewrite Array_includes_filter_ne.
    destruct (String.eqb x recipe); reflexivity.
  - rewrite Array_includes_app. cbn. rewrite orb_false_r.
    destruct (String.eqb_spec x recipe) as [->|Hne]; [by rewrite E|].
    by rewrite orb_false_r.
Qed.

Lemma filter_ne_absent (y : string) (l : list string) :
  ~ In y l -> List.filter (fun f => negb (String.eqb f y)) l = l.
Proof.
  induction l as [|z l IH]; intros H; [done|]. cbn.
  destruct (String.eqb_spec z y) as [->|Hzy]; cbn.
  - contradict H. by left.
  - f_equal. apply IH. contradict H. by right.
Qed.

Lemma filter_ne_last (y : string) (l : list string) :
  List.filter (fun f => negb (String.eqb f y)) (l ++ [y])%list
  = List.filter (fun f => negb (String.eqb f y)) l.
Proof. rewrite List.filter_app. cbn. rewrite String.eqb_refl. cbn. apply app_nil_r. Qed.

Lemma toggleFavorite_present (recipe : string) (prev : list string) :
  In recipe prev ->
  toggleFavorite recipe prev
  = List.filter (fun favId => negb (String.eqb favId recipe)) prev.
Proof.
  intros H. apply Array_includes_In in H. unfold toggleFavorite. by rewrite H.
Qed.

Lemma toggleFavorite_absent (recipe : string) (prev : list string) :
  ~ In recipe prev -> toggleFavorite recipe prev = (prev ++ [recipe])%list.
Proof.
  intros H. unfold toggleFavorite.
  destruct (Array_includes recipe prev) eqn:E; [|done].
  by apply Array_includes_In in E.
Qed.

Lemma filter_ne_moves_last (recipe : string) (prev : list string) :
  List.NoDup prev -> In recipe prev ->
  Permutation
    ((List.filter (fun f => negb (String.eqb f recipe)) prev ++ [recipe])%list) prev.
Proof.
  induction prev as [|z l IH]; intros Hnd Hin; [done|].
  apply List.NoDup_cons_iff in Hnd as [Hz Hnd]. cbn [List.filter].
  destruct (String.eqb_spec z recipe) as [->|Hzy]; cbn [negb].
  - rewrite filter_ne_absent by done.
    symmetry. apply Permutation_cons_append.
  - cbn. constructor. apply IH; [done|]. destruct Hin; [congruence|done].
Qed.

(** X2 ([toggleFavorite], ResultDisplay.tsx 66-71).  On a list without
    duplicates the update keeps the list free of duplicates, and two clicks
    on the same heart give back the same favourites: the same list when the
    recipe was not a favourite, and otherwise the list with the recipe
    taken out of its place and put at the end. *)
Theorem toggleFavorite_twice (recipe : string) (prev : list string) :
  List.NoDup prev ->
  List.NoDup (toggleFavorite recipe prev) /\
  Permutation (toggleFavorite recipe (toggleFavorite recipe prev)) prev /\
  (~ In recipe prev ->
   toggleFavorite recipe (toggleFavorite recipe prev) = prev) /\
  (In recipe prev ->
   toggleFavorite recipe (toggleFavorite recipe prev)
   = (List.filter (fun favId => negb (String.eqb favId recipe)) prev
      ++ [recipe])%list).
Proof.
  intros Hnd.
  destruct (in_dec string_dec recipe prev) as [Hin|Hout].
  - rewrite (toggleFavorite_present _ _ Hin).
    assert (~ In recipe
              (List.filter (fun f => negb (String.eqb f recipe)) prev))
      as Hgone.
    { rewrite filter_In. intros [_ H]. by rewrite String.eqb_refl in H. }
    split; [by apply List.NoDup_filter|].
    rewrite (toggleFavorite_absent _ _ Hgone).
    split; [by apply filter_ne_moves_last|]. split; done.
  - rewrite (toggleFavorite_absent _ _ Hout).
    assert (toggleFavorite recipe (prev ++ [recipe])%list = prev) as Heq.
    { rewrite toggleFavorite_present by (apply in_or_app; right; by left).
      rewrite filter_ne_last. by apply filter_ne_absent. }
    split; [|by rewrite Heq].
    apply NoDup_ListNoDup, NoDup_app. split; [by apply NoDup_ListNoDup|].
    split; [|apply NoDup_singleton].
    intros x Hx ->%list_elem_of_singleton. apply Hout. by apply list_elem_of_In.
Qed.

Lemma toggleFavorite_twice_witness :
  List.NoDup ["r1"; "r2"; "r3"] /\
  toggleFavorite "r2" (toggleFavorite "r2" ["r1"; "r2"; "r3"])
  = ["r1"; "r3"; "r2"] /\
  Permutation (toggleFavorite "r2" (toggleFavorite "r2" ["r1"; "r2"; "r3"]))
    ["r1"; "r2"; "r3"].
Proof.
  assert (List.NoDup ["r1"; "r2"; "r3"]) as Hnd.
  { repeat constructor; cbn; intuition discriminate. }
  split; [exact Hnd|].
  destruct (toggleFavorite_twice "r2" ["r1"; "r2"; "r3"] Hnd)
    as (_ & Hperm & _ & Hmoved).
  split; [|exact Hperm].
  rewrite Hmoved; [reflexivity|]. right. by left.
Defined.

End FavoriteFacts.

(** ** The stable sort *)

Section SortFacts.
Import Js ResultDisplay Ordering.
Context {A : Type} (cmp : A -> A -> Z).


Lemma insert_permutation (x : A) (l : list A) :
  Permutation (insert cmp x l) (x :: l).
Proof.
  induction l as [|y l IH]; [done|]. cbn.
  destruct (cmp x y <=? 0)%Z; [done|].
  rewrite IH. apply perm_swap.
Qed.

Lemma Array_sort_permutation (l : list A) : Permutation (Array_sort cmp l) l.
Proof.
  induction l as [|x l IH]; [done|]. cbn.
  rewrite insert_permutation. by constructor.
Qed.

(** Insertion does not reorder the members of a class whose members never
    compare above one another. *)
Lemma insert_keeps_class (c : A -> bool) (x : A) (l : list A) :
  (forall b, In b l -> c x = true -> c b = true -> before cmp x b) ->
  List.filter c (insert cmp x l) = List.filter c (x :: l).
Proof.
  induction l as [|y l IH]; intros Hc; [done|]. cbn [insert].
  destruct (Z.leb_spec (cmp x y) 0) as [Hle|Hgt]; [done|].
  cbn [List.filter]. rewrite IH by (intros b Hb; apply Hc; by right).
  cbn [List.filter].
  destruct (c x) eqn:Hx, (c y) eqn:Hy; try done.
  specialize (Hc y (or_introl eq_refl) eq_refl Hy).
  unfold before in Hc. lia.
Qed.

Lemma Array_sort_keeps_class (c : A -> bool) (l : list A) :
  (forall a b, In a l -> In b l -> c a = true -> c b = true -> before cmp a b) ->
  List.filter c (Array_sort cmp l) = List.filter c l.
Proof.
  induction l as [|x l IH]; intros Hc; [done|].
  change (Array_sort cmp (x :: l)) with (insert cmp x (Array_sort cmp l)).
  rewrite insert_keeps_class.
  - cbn [List.filter]. rewrite IH; [done|].
    intros a b Ha Hb. apply Hc; by right.
  - intros b Hb. apply Hc; [by left|].
    right. by apply (Permutation_in _ (Array_sort_permutation l)).
Qed.

Context (Q : A -> Prop).
Context (total : forall a b, Q a -> Q b -> before cmp a b \/ before cmp b a).
Context (trans : forall a b c, Q a -> Q b -> Q c ->
                               before cmp a b -> before cmp b c -> before cmp a c).

Lemma insert_sorted (x : A) (l : list A) :
  Q x -> Forall Q l -> StronglySorted (before cmp) l ->
  StronglySorted (before cmp) (insert cmp x l).
Proof.
  intros Hx HQ Hs. induction Hs as [|y l Hs IH Hy]; cbn.
  - repeat constructor.
  - apply Forall_cons_iff in HQ as [HQy HQ].
    destruct (Z.leb_spec (cmp x y) 0) as [Hle|Hgt].
    + constructor; [by constructor|]. constructor; [exact Hle|].
      rewrite Forall_forall in *. intros z Hz.
      apply list_elem_of_In in Hz.
      eapply (trans x y z); eauto. 
      * apply HQ. by apply list_elem_of_In.
      * apply Hy. by apply list_elem_of_In.
    + constructor; [by apply IH|].
      eapply Permutation_Forall; [symmetry; apply insert_permutation|].
      constructor; [|exact Hy].
      destruct (total x y Hx HQy) as [H|H];
        [unfold before in H; lia|exact H].
Qed.

Lemma Array_sort_sorted (l : list A) :
  Forall Q l -> StronglySorted (before cmp) (Array_sort cmp l).
Proof.
  induction l as [|x l IH]; intros HQ; [constructor|].
  apply Forall_cons_iff in HQ as [Hx HQ].
  change (Array_sort cmp (x :: l)) with (insert cmp x (Array_sort cmp l)).
  apply insert_sorted; [done| |by apply IH].
  eapply Permutation_Forall; [symmetry; apply Array_sort_permutation|done].
Qed.


Lemma tied_refl (a : A) : Q a -> tied cmp a a = true.
Proof.
  intros Ha. unfold tied.
  destruct (total a a Ha Ha) as [H|H]; unfold before in H;
    apply Z.leb_le in H; by rewrite H.
Qed.

(** Two arrangements that are sorted and keep every class of tied
    elements in the same order are the same arrangement. *)
Lemma sorted_stable_unique (l1 : list A) : forall l2 : list A,
  Forall Q l1 -> Forall Q l2 ->
  StronglySorted (before cmp) l1 -> StronglySorted (before cmp) l2 ->
  (forall a, In a l1 \/ In a l2 ->
             List.filter (tied cmp a) l1 = List.filter (tied cmp a) l2) ->
  l1 = l2.
Proof.
  induction l1 as [|x t1 IH]; intros l2 HQ1 HQ2 Hs1 Hs2 Hst.
  - destruct l2 as [|y t2]; [done|].
    apply Forall_cons_iff in HQ2 as [Hy _].
    specialize (Hst y (or_intror (or_introl eq_refl))). cbn in Hst.
    by rewrite (tied_refl y Hy) in Hst.
  - apply Forall_cons_iff in HQ1 as [Hx HQ1].
    apply StronglySorted_inv in Hs1 as [Hs1 Hx1].
    destruct l2 as [|y t2].
    { specialize (Hst x (or_introl (or_introl eq_refl))). cbn in Hst.
      by rewrite (tied_refl x Hx) in Hst. }
    apply Forall_cons_iff in HQ2 as [Hy HQ2].
    apply StronglySorted_inv in Hs2 as [Hs2 Hy2].
    assert (x = y) as <-.
    { pose proof (Hst x (or_introl (or_introl eq_refl))) as Hfx.
      pose proof (Hst y (or_intror (or_introl eq_refl))) as Hfy.
      cbn [List.filter] in Hfx, Hfy.
      rewrite (tied_refl x Hx) in Hfx. rewrite (tied_refl y Hy) in Hfy.
      assert (In x (y :: t2)) as Hxin.
      { assert (In x (List.filter (tied cmp x) (y :: t2))) as H
          by (cbn [List.filter]; rewrite <- Hfx; by left).
        by apply filter_In in H as [H _]. }
      assert (In y (x :: t1)) as Hyin.
      { assert (In y (List.filter (tied cmp y) (x :: t1))) as H
          by (cbn [List.filter]; rewrite Hfy; by left).
        by apply filter_In in H as [H _]. }
      assert (before cmp y x) as Hyx.
      { destruct Hxin as [->|Hxin];
          [destruct (total x x Hx Hx); done|].
        rewrite Forall_forall in Hy2. apply Hy2. by apply list_elem_of_In. }
      assert (before cmp x y) as Hxy.
      { destruct Hyin as [->|Hyin];
          [destruct (total y y Hy Hy); done|].
        rewrite Forall_forall in Hx1. apply Hx1. by apply list_elem_of_In. }
      assert (tied cmp x y = true) as Ht.
      { unfold tied. unfold before in Hxy, Hyx.
        apply Z.leb_le in Hxy, Hyx. by rewrite Hxy, Hyx. }
      rewrite Ht in Hfx. by injection Hfx. }
    f_equal. apply IH; try done.
    intros a Ha.
    assert (In a (x :: t1) \/ In a (x :: t2)) as Ha'
      by (destruct Ha; [left|right]; by right).
    specialize (Hst a Ha'). cbn [List.filter] in Hst.
    destruct (tied cmp a x); [by injection Hst|done].
Qed.

(** The arrangement [Array_sort] computes is the only sorted one that keeps
    tied elements in their order. *)
Lemma Array_sort_unique (l l' : list A) :
  Forall Q l -> Permutation l' l -> StronglySorted (before cmp) l' ->
  (forall a, In a l -> List.filter (tied cmp a) l' = List.filter (tied cmp a) l) ->
  l' = Array_sort cmp l.
Proof.
  intros HQ Hp Hs Hst.
  assert (Forall Q l') as HQ'
    by (eapply Permutation_Forall; [symmetry; exact Hp|done]).
  apply sorted_stable_unique; try done.
  - eapply Permutation_Forall; [symmetry; apply Array_sort_permutation|done].
  - by apply Array_sort_sorted.
  - intros a Ha.
    assert (In a l) as Hal.
    { destruct Ha as [Ha|Ha].
      - by apply (Permutation_in _ Hp).
      - by apply (Permutation_in _ (Array_sort_permutation l)). }
    rewrite (Hst a Hal). symmetry. apply Array_sort_keeps_class.
    intros u v Hu Hv Hau Hav. unfold tied in Hau, Hav.
    apply andb_true_iff in Hau as [_ Hua], Hav as [Hav _].
    apply Z.leb_le in Hua, Hav.
    rewrite Forall_forall in HQ.
    apply (trans u a v); try (apply HQ; by apply list_elem_of_In); done.
Qed.

End SortFacts.

(** ** ResultDisplay: the recipe list, the counts and the scale *)

Section RecipeListFacts.
Import Js ResultDisplay Ordering.

Lemma difficultyPriority_range (d : string) (p : Z) :
  difficultyPriority d = Some p -> (1 <= p <= 99)%Z.
Proof.
  unfold difficultyPriority.
  repeat (destruct (String.eqb d _); [intros [= <-]; lia|]).
  destruct (inherited d); [discriminate|intros [= <-]; lia].
Qed.

Lemma difficultyPriority_defined (d : string) :
  inherited d = false -> exists p, difficultyPriority d = Some p.
Proof.
  intros H. unfold difficultyPriority. rewrite H.
  repeat (destruct (String.eqb d _); [eauto|]). eauto.
Qed.

(** Under a comparator result, what the two recipes look like. *)
Lemma compare_before (favorites : list string) (a b : Recipe) (pa pb : Z) :
  difficultyPriority (difficulty a) = Some pa ->
  difficultyPriority (difficulty b) = Some pb ->
  before (compare favorites) a b <->
  (Array_includes (id a) favorites = true /\
   Array_includes (id b) favorites = false) \/
  (Array_includes (id a) favorites = Array_includes (id b) favorites /\
   (pa <= pb)%Z).
Proof.
  intros Ha Hb. unfold before, compare. rewrite Ha, Hb.
  destruct (Array_includes (id a) favorites),
    (Array_includes (id b) favorites); cbn;
    intuition (try congruence; try lia).
Qed.

Lemma compare_total (favorites : list string) (a b : Recipe) :
  inherited (difficulty a) = false -> inherited (difficulty b) = false ->
  before (compare favorites) a b \/ before (compare favorites) b a.
Proof.
  intros [pa Ha]%difficultyPriority_defined [pb Hb]%difficultyPriority_defined.
  rewrite (compare_before favorites a b pa pb Ha Hb).
  rewrite (compare_before favorites b a pb pa Hb Ha).
  destruct (Array_includes (id a) favorites),
    (Array_includes (id b) favorites);
    destruct (Z.le_ge_cases pa pb); intuition (try congruence; try lia).
Qed.

Lemma compare_trans (favorites : list string) (a b c : Recipe) :
  inherited (difficulty a) = false -> inherited (difficulty b) = false ->
  inherited (difficulty c) = false ->
  before (compare favorites) a b -> before (compare favorites) b c ->
  before (compare favorites) a c.
Proof.
  intros [pa Ha]%difficultyPriority_defined [pb Hb]%difficultyPriority_defined
    [pc Hc]%difficultyPriority_defined.
  rewrite (compare_before favorites a b pa pb Ha Hb).
  rewrite (compare_before favorites b c pb pc Hb Hc).
  rewrite (compare_before favorites a c pa pc Ha Hc).
  destruct (Array_includes (id a) favorites),
    (Array_includes (id b) favorites),
    (Array_includes (id c) favorites);
    intuition (try congruence; try lia).
Qed.

(** The recipes left by the difficulty filter, before sorting. *)
Lemma filteredAndSortedRecipes_unfold (recipes : list Recipe)
    (difficultyFilter : string) (favorites : list string) :
  filteredAndSortedRecipes recipes difficultyFilter favorites
  = Array_sort (compare favorites)
      (if String.eqb difficultyFilter "全部" then recipes
       else List.filter
              (fun r => String.eqb (difficulty r) difficultyFilter) recipes).
Proof.
  unfold filteredAndSortedRecipes.
  by destruct (String.eqb difficultyFilter "全部").
Qed.

Lemma Array_sort_In {A} (cmp : A -> A -> Z) (x : A) (l : list A) :
  In x (Array_sort cmp l) <-> In x l.
Proof.
  split; apply Permutation_in;
    [|symmetry]; apply Array_sort_permutation.
Qed.

Lemma listed_In (recipes : list Recipe) (difficultyFilter : string)
    (favorites : list string) (r : Recipe) :
  In r (filteredAndSortedRecipes recipes difficultyFilter favorites) <->
  In r recipes /\
  (difficultyFilter = "全部" \/ difficulty r = difficultyFilter).
Proof.
  rewrite filteredAndSortedRecipes_unfold, Array_sort_In.
  destruct (String.eqb_spec difficultyFilter "全部") as [->|Hne].
  - tauto.
  - rewrite filter_In, String.eqb_eq. tauto.
Qed.

(** X5 ([filteredAndSortedRecipes], ResultDisplay.tsx 95-121).  The list on
    screen holds exactly the recipes of the response that pass the
    difficulty filter, each as often as the response has it; the
    favourites change the order only. *)
Theorem listed_recipes_are_the_filtered_ones
    (recipes : list Recipe) (difficultyFilter : string)
    (favorites favorites' : list string) :
  let shown := filteredAndSortedRecipes recipes difficultyFilter favorites in
  Permutation shown
    (if String.eqb difficultyFilter "全部" then recipes
     else List.filter (fun r => String.eqb (difficulty r) difficultyFilter)
            recipes) /\
  (forall r, In r shown <->
             In r recipes /\
             (difficultyFilter = "全部" \/ difficulty r = difficultyFilter)) /\
  Permutation shown
    (filteredAndSortedRecipes recipes difficultyFilter favorites').
Proof.
  intros shown. subst shown. rewrite !filteredAndSortedRecipes_unfold.
  pose proof (fun f l => Array_sort_permutation (compare f) l) as Hp.
  split; [apply Hp|]. split.
  - intros r. rewrite <- (filteredAndSortedRecipes_unfold _ _ favorites).
    apply listed_In.
  - rewrite Hp. symmetry. apply Hp.
Qed.


Lemma filter_keeps_plain (recipes : list Recipe) (difficultyFilter : string) :
  Forall (fun r => inherited (difficulty r) = false) recipes ->
  Forall (fun r => inherited (difficulty r) = false)
    (if String.eqb difficultyFilter "全部" then recipes
     else List.filter (fun r => String.eqb (difficulty r) difficultyFilter)
            recipes).
Proof.
  intros H. destruct (String.eqb difficultyFilter "全部"); [done|].
  rewrite Forall_forall in *. intros r Hr. apply H.
  apply list_elem_of_In in Hr. apply list_elem_of_In.
  by apply filter_In in Hr as [Hr _].
Qed.



(** X7 ([filteredAndSortedRecipes], ResultDisplay.tsx 95-121).  When no
    recipe's difficulty is a name inherited from [Object.prototype] (the
    case in which the comparator is consistent and the list is fixed by
    the stable sort), recipes that agree on being a favourite and on their
    difficulty appear on screen in the order the response had them. *)
Theorem equal_rank_keeps_response_order
    (recipes : list Recipe) (difficultyFilter : string)
    (favorites : list string) (favourite : bool) (d : string) :
  Forall (fun r => inherited (difficulty r) = false) recipes ->
  let same r := Bool.eqb (Array_includes (id r) favorites) favourite
                && String.eqb (difficulty r) d in
  List.filter same
    (filteredAndSortedRecipes recipes difficultyFilter favorites)
  = List.filter same
      (if String.eqb difficultyFilter "全部" then recipes
       else List.filter
              (fun r => String.eqb (difficulty r) difficultyFilter) recipes).
Proof.
  intros _ same. rewrite filteredAndSortedRecipes_unfold.
  apply Array_sort_keeps_class.
  intros a b _ _ Ha Hb. unfold same in Ha, Hb.
  apply andb_true_iff in Ha as [Hfa Hda], Hb as [Hfb Hdb].
  apply Bool.eqb_prop in Hfa, Hfb. apply String.eqb_eq in Hda, Hdb.
  unfold before, compare. rewrite Hfa, Hfb, Hda, Hdb.
  destruct favourite; cbn; destruct (difficultyPriority d); lia.
Qed.

(** X8 ([filteredAndSortedRecipes], ResultDisplay.tsx 108-120).  When no
    recipe's difficulty is a name inherited from [Object.prototype], the
    comparator orders the recipes consistently and the list on screen is
    the only arrangement of the filtered recipes that is sorted by it and
    keeps recipes it ties in their order: what a stable
    [Array.prototype.sort] must return. *)
Theorem listed_order_is_the_stable_sorted_one
    (recipes : list Recipe) (difficultyFilter : string)
    (favorites : list string) (arrangement : list Recipe) :
  Forall (fun r => inherited (difficulty r) = false) recipes ->
  let filtered :=
    if String.eqb difficultyFilter "全部" then recipes
    else List.filter (fun r => String.eqb (difficulty r) difficultyFilter)
           recipes in
  Permutation arrangement filtered ->
  StronglySorted (before (compare favorites)) arrangement ->
  (forall a, In a filtered ->
             List.filter (tied (compare favorites) a) arrangement
             = List.filter (tied (compare favorites) a) filtered) ->
  arrangement = filteredAndSortedRecipes recipes difficultyFilter favorites.
Proof.
  intros Hplain filtered Hp Hs Hst.
  rewrite filteredAndSortedRecipes_unfold.
  apply (Array_sort_unique (compare favorites)
           (fun r => inherited (difficulty r) = false)); try done.
  - intros a b. apply compare_total.
  - intros a b c. apply compare_trans.
  - by apply filter_keeps_plain.
Qed.

Lemma count_one_fold (recipes : list Recipe) : forall c : Counts,
  let n d := length (List.filter (fun r => String.eqb (difficulty r) d)
                       recipes) in
  fold_left count_one recipes c
  = {| easy := easy c + n "简单"; medium := medium c + n "中等";
       hard := hard c + n "困难"; all := all c + n "全部" |}.
Proof.
  induction recipes as [|r recipes IH]; intros c n.
  - subst n. cbn. destruct c. cbn. f_equal; lia.
  - cbn [fold_left]. rewrite IH. subst n. cbn [List.filter].
    unfold count_one. cbv zeta.
    destruct (String.eqb (difficulty r) "简单") eqn:E1,
      (String.eqb (difficulty r) "中等") eqn:E2,
      (String.eqb (difficulty r) "困难") eqn:E3,
      (String.eqb (difficulty r) "全部") eqn:E4;
      try apply String.eqb_eq in E1; try apply String.eqb_eq in E2;
      try apply String.eqb_eq in E3; try apply String.eqb_eq in E4;
      try congruence; cbn; f_equal; lia.
Qed.

Lemma Array_sort_length {A} (cmp : A -> A -> Z) (l : list A) :
  length (Array_sort cmp l) = length l.
Proof. apply Permutation_length, Array_sort_permutation. Qed.

(** X9 ([counts] and [filteredAndSortedRecipes], ResultDisplay.tsx 85-121).
    The numbers in the selector for 简单, 中等 and 困难 are the lengths of
    the lists those filters show.  The number for 全部 is the length of the
    unfiltered list plus the number of recipes whose difficulty is the
    string 全部 itself. *)
Theorem selector_counts_and_list_lengths
    (recipes : list Recipe) (favorites : list string) :
  let listed d := length (filteredAndSortedRecipes recipes d favorites) in
  easy (counts recipes) = listed "简单" /\
  medium (counts recipes) = listed "中等" /\
  hard (counts recipes) = listed "困难" /\
  all (counts recipes)
  = listed "全部"
    + length (List.filter (fun r => String.eqb (difficulty r) "全部")
                recipes).
Proof.
  intros listed. subst listed. unfold counts. rewrite count_one_fold.
  rewrite !filteredAndSortedRecipes_unfold, !Array_sort_length. cbn.
  repeat split; reflexivity.
Qed.

Lemma maxCalories_fold (l : list Z) :
  (1 <= foldr Z.max 1 l)%Z /\
  Forall (fun n => (n <= foldr Z.max 1 l)%Z) l /\
  (foldr Z.max 1%Z l = 1%Z \/ In (foldr Z.max 1%Z l) l).
Proof.
  induction l as [|n l (IH1 & IH2 & IH3)]; cbn.
  - split; [lia|]. split; [constructor|by left].
  - split; [lia|]. split.
    + constructor; [lia|]. eapply Forall_impl; [exact IH2|].
      cbn. intros; lia.
    + destruct (Z.max_spec n (foldr Z.max 1%Z l)) as [[_ ->]|[_ ->]].
      * destruct IH3; [by left|right; by right].
      * right. by left.
Qed.

(** X10 ([maxCalories], ResultDisplay.tsx 123-125).  The scale of the
    calorie bars is at least 1 and at least every ingredient's figure (an
    absent figure counting as 0), and it is 1 or the figure of one of the
    ingredients. *)
Theorem maxCalories_bounds (ingredients : list IngredientInfo) :
  let figure i := match caloriesPer100g i with
                  | Some n => n
                  | None => 0%Z
                  end in
  (1 <= maxCalories ingredients)%Z /\
  (forall i, In i ingredients -> (figure i <= maxCalories ingredients)%Z) /\
  (maxCalories ingredients = 1%Z \/
   exists i, In i ingredients /\
             caloriesPer100g i = Some (maxCalories ingredients)).
Proof.
  intros figure. unfold maxCalories.
  destruct (maxCalories_fold (map figure ingredients)) as (H1 & H2 & H3).
  fold figure. split; [exact H1|]. split.
  - intros i Hi. rewrite Forall_forall in H2. apply H2.
    apply list_elem_of_In. by apply in_map.
  - destruct H3 as [H3|H3]; [by left|].
    apply in_map_iff in H3 as (i & Hfig & Hi).
    destruct (caloriesPer100g i) as [n|] eqn:E.
    + right. exists i. split; [done|]. subst figure. cbn in Hfig.
      rewrite E in Hfig. by rewrite <- Hfig.
    + subst figure. cbn in Hfig. rewrite E in Hfig. lia.
Qed.

Lemma menu_plain :
  Forall (fun r => inherited (difficulty r) = false) Scenario.menu.
Proof. repeat constructor. Qed.


Lemma equal_rank_keeps_response_order_witness :
  List.filter
    (fun r => Bool.eqb (Array_includes (id r) ["r4"]) false
              && String.eqb (difficulty r) "简单")
    (filteredAndSortedRecipes Scenario.menu "全部" ["r4"])
  = [Scenario.dish "r2" "简单"; Scenario.dish "r3" "简单"].
Proof.
  rewrite (equal_rank_keeps_response_order Scenario.menu "全部" ["r4"] false
             "简单" menu_plain).
  reflexivity.
Defined.

Lemma listed_order_is_the_stable_sorted_one_witness :
  [Scenario.dish "r2" "简单"; Scenario.dish "r1" "困难"]
  = filteredAndSortedRecipes
      [Scenario.dish "r1" "困难"; Scenario.dish "r2" "简单"] "全部" [].
Proof.
  apply (listed_order_is_the_stable_sorted_one
           [Scenario.dish "r1" "困难"; Scenario.dish "r2" "简单"] "全部" []).
  - repeat constructor.
  - apply perm_swap.
  - repeat constructor; unfold before; vm_compute; discriminate.
  - intros a [<-|[<-|[]]]; reflexivity.
Defined.

End RecipeListFacts.

(** ** ResultDisplay: the check lists *)

Section ChecklistFacts.
Import Js ResultDisplay.

Lemma toggleIngredient_result
    (recipeId ingredient : string) (prev next : gmap string (gset string)) :
  toggleIngredient recipeId ingredient prev = Some next ->
  let old := default ∅ (prev !! recipeId) in
  next = <[recipeId :=
             if decide (ingredient ∈ old) then old ∖ {[ingredient]}
             else old ∪ {[ingredient]}]> prev.
Proof.
  intros H old. unfold toggleIngredient in H.
  subst old. destruct (prev !! recipeId) as [s|]; cbn.
  - by injection H as <-.
  - destruct (inherited recipeId); [discriminate|]. by injection H as <-.
Qed.

(** X3 ([toggleIngredient], ResultDisplay.tsx 73-83).  The update throws
    exactly when the recipe has no check list yet and its id is a name
    inherited from [Object.prototype].  Otherwise it flips the one
    ingredient in the check list of the one recipe (an absent list counting
    as empty) and leaves the other ingredients and the other recipes as
    they were. *)
Theorem toggleIngredient_flips_one
    (recipeId ingredient : string) (prev : gmap string (gset string)) :
  let old := default ∅ (prev !! recipeId) in
  (toggleIngredient recipeId ingredient prev = None <->
   inherited recipeId = true /\ prev !! recipeId = None) /\
  (forall next, toggleIngredient recipeId ingredient prev = Some next ->
   exists new,
     next !! recipeId = Some new /\
     (ingredient ∈ new <-> ingredient ∉ old) /\
     (forall other, other <> ingredient -> other ∈ new <-> other ∈ old) /\
     (forall r, r <> recipeId -> next !! r = prev !! r)).
Proof.
  intros old. split.
  - unfold toggleIngredient.
    destruct (prev !! recipeId) as [s|];
      [split; [discriminate|by intros [_ ?]]|].
    destruct (inherited recipeId); split; try done. by intros [? _].
  - intros next H. rewrite (toggleIngredient_result _ _ _ _ H). fold old.
    eexists. split; [apply lookup_insert_eq|].
    split; [|split].
    + destruct (decide (ingredient ∈ old)); set_solver.
    + intros other Hne. destruct (decide (ingredient ∈ old)); set_solver.
    + intros r Hne. by apply lookup_insert_ne.
Qed.

(** X4 ([toggleIngredient], ResultDisplay.tsx 73-83).  When a click on an
    ingredient goes through, a second click on it goes through too and
    gives the recipe the check list it had before the first (the empty one
    when it had none); the other recipes keep theirs. *)
Theorem toggleIngredient_twice_restores
    (recipeId ingredient : string) (prev next : gmap string (gset string)) :
  toggleIngredient recipeId ingredient prev = Some next ->
  exists again,
    toggleIngredient recipeId ingredient next = Some again /\
    again !! recipeId = Some (default ∅ (prev !! recipeId)) /\
    (forall r, r <> recipeId -> again !! r = prev !! r).
Proof.
  intros H. rewrite (toggleIngredient_result _ _ _ _ H).
  set (old := default ∅ (prev !! recipeId)).
  unfold toggleIngredient at 1. rewrite lookup_insert_eq.
  eexists. split; [reflexivity|]. split.
  - rewrite lookup_insert_eq. f_equal. apply set_eq. intros x.
    destruct (decide (ingredient ∈ old)); 
      destruct (decide (x = ingredient)) as [->|Hne];
      match goal with
      | |- context [decide (?a ∈ ?s)] => destruct (decide (a ∈ s))
      end; set_solver.
  - intros r Hne. rewrite !lookup_insert_ne by done. reflexivity.
Qed.

Lemma toggleIngredient_twice_restores_witness :
  toggleIngredient "r1" "番茄" ∅ = Some {["r1" := {["番茄"]}]} /\
  exists again,
    toggleIngredient "r1" "番茄" {["r1" := {["番茄"]}]} = Some again /\
    again !! "r1" = Some (default ∅ ((∅ : gmap string (gset string)) !! "r1")) /\
    (forall r, r <> "r1" -> again !! r = (∅ : gmap string (gset string)) !! r).
Proof.
  assert (toggleIngredient "r1" "番茄" ∅ = Some {["r1" := {["番茄"]}]}) as H.
  { vm_compute. reflexivity. }
  split; [exact H|].
  apply (toggleIngredient_twice_restores "r1" "番茄" ∅ _ H).
Defined.

End ChecklistFacts.

(** ** ResultDisplay: the favourites in [localStorage] *)

Section StoredFavorites.
Import Js GeminiService ResultDisplay.
Context (P : Platform) (JSON_stringify : list string -> string).

Lemma strings_of_strings (l : list string) :
  strings_of (map JString l) = Some l.
Proof. induction l as [|s l IH]; [done|]. cbn. by rewrite IH. Qed.

Lemma load_restores (text : string) (favorites : list string) :
  text <> "" ->
  JSON_parse P text = inr (JArray (map JString favorites)) ->
  load P (Some text) = Restored favorites.
Proof.
  intros Htext Hparse. unfold load.
  apply String.eqb_neq in Htext. rewrite Htext, Hparse, strings_of_strings.
  reflexivity.
Qed.

(** X11 (the effects of ResultDisplay.tsx 47-60).  When the stored item is
    a non-empty text that parses to an array of strings, then once the
    effects of mounting have run the favourites are that array, and the
    item has been written again from it. *)
Theorem stored_favorites_restored (text : string) (favorites : list string) :
  text <> "" ->
  JSON_parse P text = inr (JArray (map JString favorites)) ->
  mounted P JSON_stringify (Some text)
  = Some (favorites, JSON_stringify favorites).
Proof.
  intros Htext Hparse. unfold mounted.
  by rewrite (load_restores text favorites Htext Hparse).
Qed.

(** X12 (the effects of ResultDisplay.tsx 47-60).  When the stored item is
    missing, empty or not parseable, the favourites stay empty once the
    effects of mounting have run, and the item has been overwritten with
    the empty list. *)
Theorem unreadable_favorites_overwritten (item : option string) :
  item = None \/ item = Some "" \/
  (exists text msg, item = Some text /\ JSON_parse P text = inl msg) ->
  mounted P JSON_stringify item = Some ([], JSON_stringify []).
Proof.
  unfold mounted, load.
  intros [-> | [-> | (text & msg & -> & Hparse)]]; try reflexivity.
  rewrite Hparse. by destruct (String.eqb text "").
Qed.

(** X13 ([toggleFavorite] and the effects of ResultDisplay.tsx 47-71).
    After a click on a heart the item holds the new favourites: provided
    [JSON.parse] reads back what [JSON.stringify] wrote, a component
    mounted afterwards starts with the favourites as the click left them
    and leaves the item as it is. *)
Theorem favorites_survive_reload (recipe : string)
    (state : list string * string) :
  let clicked := favorite_clicked JSON_stringify recipe state in
  snd clicked <> "" ->
  JSON_parse P (snd clicked) = inr (JArray (map JString (fst clicked))) ->
  mounted P JSON_stringify (Some (snd clicked)) = Some clicked.
Proof.
  intros clicked Hne Hparse.
  unfold mounted. rewrite (load_restores _ (fst clicked) Hne Hparse).
  subst clicked. reflexivity.
Qed.

End StoredFavorites.

Section StoredFavoritesWitnesses.
Import Js GeminiService ResultDisplay.

Lemma stored_favorites_restored_witness :
  mounted Stored.platform Stored.stringify
    (Some (Stored.stringify ["r1"; "r2"]))
  = Some (["r1"; "r2"], Stored.stringify ["r1"; "r2"]).
Proof.
  apply (stored_favorites_restored Stored.platform Stored.stringify
           (Stored.stringify ["r1"; "r2"]) ["r1"; "r2"]).
  - vm_compute. discriminate.
  - reflexivity.
Defined.

Lemma unreadable_favorites_overwritten_witness :
  mounted Stored.platform Stored.stringify (Some "[r1,")
  = Some ([], Stored.stringify []).
Proof.
  apply (unreadable_favorites_overwritten Stored.platform Stored.stringify
           (Some "[r1,")).
  right; right. exists "[r1,", "Unexpected token". split; reflexivity.
Defined.

Lemma favorites_survive_reload_witness :
  mounted Stored.platform Stored.stringify
    (Some (snd (favorite_clicked Stored.stringify "r2"
                  (["r1"], Stored.stringify ["r1"]))))
  = Some (favorite_clicked Stored.stringify "r2"
            (["r1"], Stored.stringify ["r1"])).
Proof.
  apply (favorites_survive_reload Stored.platform Stored.stringify "r2"
           (["r1"], Stored.stringify ["r1"])).
  - vm_compute. discriminate.
  - reflexivity.
Defined.

End StoredFavoritesWitnesses.

(** ** App: what a session puts on screen *)

Section ScreenFacts.
Import Js GeminiService App AppView.

Lemma or_else_nonempty (a : option string) (d : string) :
  d <> "" -> or_else a d <> "".
Proof.
  intros Hd. unfold or_else. destruct a as [s|]; [|done].
  destruct (String.eqb_spec s ""); done.
Qed.

(** X14 ([handleCapture] and the banner, App.tsx 13-34 and 61-66).  A
    session that fails leaves a message that is not empty in [error],
    clears [isProcessing] and keeps [result]; on the camera screen the
    banner shows that message. *)
Theorem failure_always_shows_a_message
    (P : Platform) (base64Image : string) (a : State) (p : Process)
    (settles : option (N * GenerateContentOutcome)) (timer_first : bool)
    (m : string) :
  let σ := session P base64Image a p settles timer_first in
  In (Failure m) (delivered σ) ->
  m <> "" /\
  error (app σ) = Some m /\
  isProcessing (app σ) = false /\
  result (app σ) = result a /\
  (js_truthy (result a) = false -> banner (app σ) = Some m).
Proof.
  intros σ Hin.
  destruct (session_summary P base64Image a p settles timer_first)
    as (_ & _ & out & Hd & Ha & Hout).
  fold σ in Hd, Ha. rewrite Hd in Hin. destruct Hin as [Heq|[]].
  assert (m <> "") as Hm.
  { subst out.
    destruct (GoogleGenAI_ctor P (API_KEY p)) as [msg|].
    - injection Hout as Hm. rewrite Hm.
      by apply (or_else_nonempty (Some msg) fallback_message).
    - destruct (settles_before_deadline P p settles timer_first) as [o|];
        [|injection Hout as Hm; by rewrite Hm].
      destruct (analyze_settle P o) as [v|[msg|]]; try discriminate;
        injection Hout as Hm; rewrite Hm; [by apply or_else_nonempty|done]. }
  subst out. rewrite Ha. repeat split; try done.
  intros Hfalsy. unfold banner, screen. cbn. rewrite Hfalsy.
  by apply String.eqb_neq in Hm as ->.
Qed.



Lemma failure_always_shows_a_message_witness :
  banner (app (session Sample.platform "QUJD" initial Sample.process
                 (Some (800%N, Rejects (new_Error "xhr error"))) false))
  = Some network_message.
Proof.
  apply (failure_always_shows_a_message Sample.platform "QUJD" initial
           Sample.process (Some (800%N, Rejects (new_Error "xhr error")))
           false network_message).
  - left. reflexivity.
  - reflexivity.
Defined.


End ScreenFacts.

(** ** The page: an invariant of every reachable state *)

Section PageFacts.
Import Js GeminiService App CameraView AppView Orchestrator Page.

Lemma rendered_render (s : CameraView.State) : rendered (render s).
Proof.
  unfold rendered, render. cbn.
  destruct (CameraView.error s), (capturedImage s); cbn; try reflexivity.
  by destruct (videoRef s).
Qed.

Lemma render_mounts_video (s : CameraView.State) :
  CameraView.error s = None -> capturedImage s = None ->
  videoRef (render s)
  = Some (match videoRef s with Some v => v | None => fresh_video end).
Proof. intros He Hc. unfold render. cbn. rewrite He, Hc. cbn. by destruct (videoRef s). Qed.

Lemma rendered_hidden (s : CameraView.State) :
  rendered s ->
  CameraView.error s <> None \/ capturedImage s <> None ->
  videoRef s = None.
Proof.
  unfold rendered. intros H Hh.
  destruct (videoRef s); [|done]. cbn in H.
  destruct (CameraView.error s), (capturedImage s); cbn in H; try discriminate.
  destruct Hh; done.
Qed.

Lemma rendered_visible (s : CameraView.State) (v : VideoElement) :
  rendered s -> videoRef s = Some v ->
  CameraView.error s = None /\ capturedImage s = None.
Proof.
  unfold rendered. intros H Hv. rewrite Hv in H. cbn in H.
  destruct (CameraView.error s), (capturedImage s); cbn in H; done.
Qed.

(** When every live stream sits at one index, at most one is live. *)
Lemma none_live (l : list MediaStream) :
  (forall i s, l !! i = Some s -> stream_live s = false) ->
  List.filter stream_live l = [].
Proof.
  induction l as [|x l IH]; intros H; [done|]. cbn.
  rewrite (H 0 x eq_refl). apply IH. intros i s. apply (H (S i)).
Qed.

Lemma one_live (l : list MediaStream) : forall k : nat,
  (forall i s, l !! i = Some s -> stream_live s = true -> i = k) ->
  length (List.filter stream_live l) <= 1.
Proof.
  induction l as [|x l IH]; intros k H; cbn; [lia|].
  destruct (stream_live x) eqn:Hx.
  - rewrite none_live; [cbn; lia|].
    intros i s Hi. destruct (stream_live s) eqn:Hs; [|done].
    pose proof (H 0 x eq_refl Hx). pose proof (H (S i) s Hi Hs). lia.
  - destruct k as [|k].
    + rewrite none_live; [cbn; lia|].
      intros i s Hi. destruct (stream_live s) eqn:Hs; [|done].
      pose proof (H (S i) s Hi Hs). lia.
    + apply (IH k). intros i s Hi Hs. pose proof (H (S i) s Hi Hs). lia.
Qed.

Lemma invariant_initial (p : Process) : invariant (Ui.initial p).
Proof.
  constructor; cbn.
  - intros i s Hi. by rewrite lookup_nil in Hi.
  - reflexivity.
  - reflexivity.
  - right. exists AwaitingPreferred. split; [done|].
    unfold waiting; cbn. repeat split. eauto.
  - discriminate.
  - discriminate.
  - done.
  - done.
Qed.


(** No stream holds the camera. *)
Lemma quiet_if_unattached (u : Ui.State) :
  invariant u -> attached u = None \/ Ui.shown u = false ->
  forall i s, streams (device (Ui.cam u)) !! i = Some s ->
              stream_live s = false.
Proof.
  intros Hinv Hno i s Hi. destruct (stream_live s) eqn:Hs; [|done].
  destruct (live_attached u Hinv i s Hi Hs) as [Hshown Hatt].
  destruct Hno as [Hno|Hno]; congruence.
Qed.

Lemma start_camera_invariant (u : Ui.State) :
  Ui.shown u = true ->
  isProcessing (Ui.app u) = false ->
  streamActive (view (Ui.cam u)) = false ->
  CameraView.error (view (Ui.cam u)) = None ->
  (videoRef (view (Ui.cam u)) = None \/
   exists v, videoRef (view (Ui.cam u)) = Some v /\
             srcObject v = None /\ readyState v = 0) ->
  Ui.inflight u = [] ->
  (forall i s, streams (device (Ui.cam u)) !! i = Some s ->
               stream_live s = false) ->
  Ui.shown u = negb (js_truthy (result (Ui.app u))) ->
  match Ui.session u with
  | Some σ => orderly σ /\
              (state (racePromise σ) = None -> isProcessing (Ui.app u) = true)
  | None => True
  end ->
  invariant (Ui.start_camera u).
Proof.
  intros Hshown Hproc Hactive Herr Hvideo Hin Hquiet Hfalsy Hsess.
  assert (waiting (Ui.start_camera u)) as Hwait.
  { unfold waiting, Ui.start_camera; cbn. rewrite Herr. cbn.
    repeat split; try done.
    destruct Hvideo as [->|(v & -> & Hsrc & Hready)]; eauto. }
  constructor.
  - intros i s Hi Hs. cbn in Hi. by rewrite (Hquiet i s Hi) in Hs.
  - cbn. rewrite Hshown. apply rendered_render.
  - exact Hfalsy.
  - right. exists AwaitingPreferred. split; [|exact Hwait].
    cbn. by rewrite Hin.
  - destruct Hwait as (_ & _ & -> & _). discriminate.
  - cbn. rewrite Hproc. discriminate.
  - destruct Hwait as (_ & _ & _ & -> & _). done.
  - exact Hsess.
Qed.


Lemma outcome_invariant (u : Ui.State) (out : AnalysisOutcome) :
  Ui.shown u = true ->
  isProcessing (Ui.app u) = true ->
  capturedImage (view (Ui.cam u)) <> None ->
  streamActive (view (Ui.cam u)) = false ->
  CameraView.error (view (Ui.cam u)) = None ->
  rendered (view (Ui.cam u)) ->
  Ui.inflight u = [] ->
  (forall i s, streams (device (Ui.cam u)) !! i = Some s ->
               stream_live s = false) ->
  Ui.shown u = negb (js_truthy (result (Ui.app u))) ->
  match Ui.session u with
  | Some σ => orderly σ /\ is_Some (state (racePromise σ))
  | None => True
  end ->
  invariant (Ui.deliver [out] u).
Proof.
  intros Hshown Hproc Hcap Hactive Herr Hrend Hin Hquiet Hfalsy Hsess.
  assert (videoRef (view (Ui.cam u)) = None) as Hvideo
    by (apply rendered_hidden; [done|by right]).
  assert (match Ui.session u with
          | Some σ => orderly σ /\
                      (state (racePromise σ) = None -> false = true)
          | None => True
          end) as Hsess'.
  { destruct (Ui.session u) as [σ|]; [|done].
    destruct Hsess as [Ho [s Hs]]. split; [done|]. congruence. }
  unfold Ui.deliver. cbn [fold_left].
  unfold Ui.App_rendered. cbn [Ui.shown Ui.with_app]. rewrite Hshown.
  destruct (js_truthy (result (Ui.app (Ui.with_app
              (Ui.apply_outcome out (Ui.app u)) u)))) eqn:Htruthy;
    cbn [negb].
  - (* the result screen takes over *)
    constructor; cbn.
    + intros i s Hi Hs. by rewrite (Hquiet i s Hi) in Hs.
    + reflexivity.
    + cbn in Htruthy. by rewrite Htruthy.
    + by left.
    + discriminate.
    + destruct out; cbn; discriminate.
    + done.
    + destruct out; cbn; exact Hsess'.
  - (* the camera is started again *)
    assert (isProcessing (Ui.apply_outcome out (Ui.app u)) = false) as Hdone
      by (by destruct out).
    cbn [Ui.app Ui.with_app]. rewrite Hproc, Hdone. cbn [Bool.eqb].
    unfold Ui.camera_effect. cbn [Ui.app Ui.with_cam Ui.with_app].
    rewrite Hdone.
    change (Ui.cam (Ui.with_app (Ui.apply_outcome out (Ui.app u)) u))
      with (Ui.cam u).
    assert (effect_cleanup (Ui.cam u) = Ui.cam u) as ->
      by (unfold effect_cleanup; by rewrite Hvideo).
    apply start_camera_invariant; cbn; try done.
    + by left.
    + cbn in Htruthy. by rewrite Htruthy.
    + by rewrite Hdone.
Qed.


Lemma gum_invariant (P : Platform) (u u' : Ui.State) (k : nat)
    (o : GetUserMediaOutcome) :
  invariant u -> Ui.step P u (Ui.GetUserMediaSettles k o) = Some u' ->
  invariant u'.
Proof.
  intros Hinv Hstep. cbn in Hstep.
  destruct (one_inflight u Hinv) as [Hnone|(at_ & Hone & Hwait)].
  { rewrite Hnone in Hstep. by rewrite lookup_nil in Hstep. }
  rewrite Hone in Hstep. destruct k as [|k]; [|by destruct k].
  cbn in Hstep.
  pose proof Hwait as (Hshown & Hproc & Hactive & Herr & Hcap
                       & v & Hv & Hsrc & Hready).
  rewrite Hshown, Nat.eqb_refl in Hstep. cbn in Hstep.
  assert (forall i s, streams (device (Ui.cam u)) !! i = Some s ->
                      stream_live s = false) as Hquiet.
  { apply quiet_if_unattached; [done|]. left. unfold attached. by rewrite Hv. }
  pose proof (session_orderly u Hinv) as Hsess.
  pose proof (shown_falsy u Hinv) as Hfalsy.
  destruct o as [|reason].
  - (* granted: the new stream is attached to the element on screen *)
    unfold startCamera_resume, getUserMedia_settle in Hstep.
    destruct at_; injection Hstep as <-.
    all: assert (attach (length (streams (device (Ui.cam u))))
                   (view (Ui.cam u))
                 = CameraView.setError None
                     (set_videoRef
                        (Some {| srcObject :=
                                   Some (length (streams (device (Ui.cam u))));
                                 readyState := readyState v;
                                 videoWidth := videoWidth v;
                                 videoHeight := videoHeight v;
                                 onplaying := true;
                                 onloadedmetadata := true |})
                        (view (Ui.cam u)))) as Hattach
        by (unfold attach; rewrite Hv; cbn; by rewrite Hready).
    all: constructor; cbn -[attach]; rewrite ?Hattach; cbn;
      rewrite ?Hcap, ?Hshown; cbn.
    all: try done.
    all: try (by left).
    all: try (intros i s Hi Hs; split; [done|];
              destruct (decide (i < length (streams (device (Ui.cam u)))))
                as [Hlt|Hge];
              [ rewrite lookup_app_l in Hi by done;
                by rewrite (Hquiet i s Hi) in Hs
              | apply lookup_lt_Some in Hi as Hlen;
                rewrite length_app in Hlen; cbn in Hlen;
                unfold attached; cbn; rewrite Hcap; cbn; f_equal; lia ]).
    all: try (by rewrite Hactive).
    all: try (by rewrite Hproc).
    all: try (unfold rendered; cbn; by rewrite Hcap).
    all: congruence.
  - unfold startCamera_resume, getUserMedia_settle in Hstep.
    destruct at_; injection Hstep as <-.
    + (* the preferred request refused: the minimal one is sent *)
      constructor; cbn.
      * intros i s Hi Hs. by rewrite (Hquiet i s Hi) in Hs.
      * apply rendered_render.
      * congruence.
      * right. exists AwaitingMinimal. split; [done|].
        unfold waiting; cbn. rewrite Herr, Hcap, Hv. cbn.
        repeat split; eauto.
      * by rewrite Hactive.
      * by rewrite Hproc.
      * by rewrite Herr.
      * done.
    + (* both refused: the error panel *)
      constructor; cbn.
      * intros i s Hi Hs. by rewrite (Hquiet i s Hi) in Hs.
      * unfold rendered. by cbn.
      * congruence.
      * by left.
      * by rewrite Hactive.
      * by rewrite Hproc.
      * done.
      * done.
Qed.


(** What the element's events presuppose. *)
Lemma video_live_facts (u : Ui.State) :
  invariant u -> Ui.video_live u = true ->
  exists v i,
    Ui.shown u = true /\ videoRef (view (Ui.cam u)) = Some v /\
    srcObject v = Some i /\
    CameraView.error (view (Ui.cam u)) = None /\
    capturedImage (view (Ui.cam u)) = None /\
    Ui.inflight u = [] /\ isProcessing (Ui.app u) = false.
Proof.
  intros Hinv Hlive. unfold Ui.video_live in Hlive.
  destruct (Ui.shown u) eqn:Hshown; [|done]. cbn in Hlive.
  destruct (videoRef (view (Ui.cam u))) as [v|] eqn:Hv; [|done].
  destruct (srcObject v) as [i|] eqn:Hsrc; [|done].
  pose proof (refs_rendered u Hinv) as Hrend. rewrite Hshown in Hrend.
  destruct (rendered_visible _ v Hrend Hv) as [Herr Hcap].
  exists v, i. repeat split; try done.
  - destruct (one_inflight u Hinv) as [?|(at_ & _ & Hwait)]; [done|].
    destruct Hwait as (_ & _ & _ & _ & _ & v' & Hv' & Hsrc' & _).
    congruence.
  - destruct (isProcessing (Ui.app u)) eqn:Hproc; [|done].
    destruct (processing_captured u Hinv Hproc) as (_ & Hc & _). done.
Qed.

Lemma video_invariant (P : Platform) (u u' : Ui.State) (e : Ui.Event) :
  (exists w h, e = Ui.VideoPlays w h) \/ e = Ui.VideoPlayFails ->
  invariant u -> Ui.step P u e = Some u' -> invariant u'.
Proof.
  intros He Hinv Hstep.
  assert (Ui.video_live u = true) as Hlive.
  { destruct He as [(w & h & ->)| ->]; cbn in Hstep;
      by destruct (Ui.video_live u). }
  destruct (video_live_facts u Hinv Hlive)
    as (v & i & Hshown & Hv & Hsrc & Herr & Hcap & Hin & Hproc).
  pose proof (live_attached u Hinv) as Hlivea.
  pose proof (shown_falsy u Hinv) as Hfalsy.
  pose proof (session_orderly u Hinv) as Hsess.
  assert (attached u = Some i) as Hatt by (unfold attached; by rewrite Hv).
  destruct He as [(w & h & ->)| ->]; cbn in Hstep; rewrite Hlive in Hstep;
    injection Hstep as <-.
  - unfold video_playing. rewrite Hv.
    destruct (onplaying v); constructor; cbn;
      rewrite ?Herr, ?Hcap, ?Hshown, ?Hproc; cbn; try done;
      try (by left);
      try (intros j s Hj Hs; destruct (Hlivea j s Hj Hs) as [_ Hj'];
           split; [done|]; unfold attached; cbn;
           rewrite ?Herr, ?Hcap; cbn; congruence);
      try (unfold rendered; cbn; by rewrite ?Herr, ?Hcap);
      try (intros _; unfold attached; cbn; rewrite ?Herr, ?Hcap; cbn;
           by rewrite Hsrc);
      try congruence; rewrite Hproc in Hsess; exact Hsess.
  - constructor; cbn;
      rewrite ?Herr, ?Hcap, ?Hshown, ?Hproc, ?Hv; cbn; try done;
      try (by left);
      try (intros j s Hj Hs; destruct (Hlivea j s Hj Hs) as [_ Hj'];
           split; [done|]; unfold attached; cbn;
           rewrite ?Herr, ?Hcap, ?Hv; cbn; congruence);
      try (unfold rendered; cbn; by rewrite ?Herr, ?Hcap, ?Hv);
      try (intros _; unfold attached; cbn; rewrite ?Herr, ?Hcap, ?Hv; cbn;
           by rewrite Hsrc);
      try congruence; rewrite Hproc in Hsess; exact Hsess.
Qed.


Lemma render_keeps_video (s : CameraView.State) :
  rendered s -> videoRef (render s) = videoRef s.
Proof.
  unfold rendered, render. cbn.
  destruct (CameraView.error s), (capturedImage s), (videoRef s); cbn;
    done.
Qed.

(** The invariant reads the view only through four of its cells. *)
Lemma frame_invariant (u : Ui.State) (s : CameraView.State) :
  invariant u -> Ui.shown u = true ->
  videoRef s = videoRef (view (Ui.cam u)) ->
  CameraView.error s = CameraView.error (view (Ui.cam u)) ->
  capturedImage s = capturedImage (view (Ui.cam u)) ->
  streamActive s = streamActive (view (Ui.cam u)) ->
  invariant (Ui.with_view s u).
Proof.
  intros [H1 H2 H3 H4 H5 H6 H7 H8] Hshown Hv He Hc Ha.
  rewrite Hshown in H2.
  constructor; cbn; unfold attached, waiting in *; cbn;
    rewrite ?Hv, ?He, ?Hc, ?Ha, ?Hshown; try done.
  - intros i st Hi Hs. destruct (H1 i st Hi Hs) as [_ ?]. done.
  - unfold rendered in *. by rewrite Hv, He, Hc.
  - congruence.
  - by rewrite Hshown in H4.
  - intros Hp. destruct (H6 Hp) as (_ & ? & ? & ? & ?). done.
Qed.

Lemma commit_invariant (u : Ui.State) (s : CameraView.State) :
  invariant u -> Ui.shown u = true ->
  videoRef s = videoRef (view (Ui.cam u)) ->
  CameraView.error s = CameraView.error (view (Ui.cam u)) ->
  capturedImage s = capturedImage (view (Ui.cam u)) ->
  streamActive s = streamActive (view (Ui.cam u)) ->
  invariant (Ui.with_cam
               (commit {| view := s; device := device (Ui.cam u) |}) u).
Proof.
  intros Hinv Hshown Hv He Hc Ha.
  assert (rendered s) as Hrend.
  { pose proof (refs_rendered u Hinv) as H. rewrite Hshown in H.
    unfold rendered in *. by rewrite Hv, He, Hc. }
  apply (frame_invariant u (render s)); try done.
  by rewrite render_keeps_video.
Qed.

Lemma flash_invariant (P : Platform) (u u' : Ui.State) :
  invariant u -> Ui.step P u Ui.FlashTimerFires = Some u' -> invariant u'.
Proof.
  intros Hinv Hstep. cbn in Hstep.
  destruct (Ui.shown u) eqn:Hshown; [|done]. injection Hstep as <-.
  by apply frame_invariant.
Qed.

Lemma retry_invariant (P : Platform) (u u' : Ui.State) :
  invariant u -> Ui.step P u Ui.RetryClicked = Some u' -> invariant u'.
Proof.
  intros Hinv Hstep. cbn in Hstep.
  destruct (Ui.shown u) eqn:Hshown; [|done]. cbn in Hstep.
  destruct (CameraView.error (view (Ui.cam u))) as [m|] eqn:Herr; [|done].
  cbn in Hstep. injection Hstep as <-.
  assert (CameraView.error (view (Ui.cam u)) <> None) as Hne by congruence.
  destruct (error_idle u Hinv Hne) as [Hactive Hproc].
  pose proof (refs_rendered u Hinv) as Hrend. rewrite Hshown in Hrend.
  assert (videoRef (view (Ui.cam u)) = None) as Hv
    by (apply rendered_hidden; [done|by left]).
  apply start_camera_invariant; cbn; try done.
  - by left.
  - destruct (one_inflight u Hinv) as [?|(at_ & _ & Hwait)]; [done|].
    destruct Hwait as (_ & _ & _ & ? & _). congruence.
  - apply quiet_if_unattached; [done|]. left. unfold attached. by rewrite Hv.
  - apply (shown_falsy u Hinv).
  - apply (session_orderly u Hinv).
Qed.

Lemma reset_invariant (P : Platform) (u u' : Ui.State) :
  invariant u -> Ui.step P u Ui.ResetClicked = Some u' -> invariant u'.
Proof.
  intros Hinv Hstep. cbn in Hstep.
  destruct (Ui.shown u) eqn:Hshown; [done|]. injection Hstep as <-.
  assert (isProcessing (Ui.app u) = false) as Hproc.
  { destruct (isProcessing (Ui.app u)) eqn:Hp; [|done].
    destruct (processing_captured u Hinv Hp) as [? _]. congruence. }
  assert (Ui.inflight u = []) as Hin.
  { destruct (one_inflight u Hinv) as [?|(at_ & _ & Hwait)]; [done|].
    destruct Hwait as [? _]. congruence. }
  unfold Ui.App_rendered. cbn. rewrite Hshown.
  unfold Ui.camera_effect. cbn. rewrite Hproc.
  apply start_camera_invariant; cbn; try done.
  - right. eexists. repeat split.
  - apply quiet_if_unattached; [done|by right].
  - pose proof (session_orderly u Hinv) as Hsess.
    destruct (Ui.session u); [|done]. by rewrite Hproc in *.
Qed.


(** Replacing the stored session by one in the same standing. *)
Lemma session_swap_invariant (u : Ui.State) (p : Process) (σ : Session) :
  invariant u -> orderly σ ->
  (state (racePromise σ) = None -> isProcessing (Ui.app u) = true) ->
  invariant {| Ui.app := Ui.app u; Ui.proc := p; Ui.session := Some σ;
               Ui.shown := Ui.shown u; Ui.instance := Ui.instance u;
               Ui.cam := Ui.cam u; Ui.inflight := Ui.inflight u |}.
Proof.
  intros [H1 H2 H3 H4 H5 H6 H7 _] Ho Hp.
  constructor; try done.
Qed.

Lemma session_invariant (P : Platform) (u u' : Ui.State) (ev : App.Event) :
  invariant u -> Ui.step P u (Ui.SessionEvent ev) = Some u' -> invariant u'.
Proof.
  intros Hinv Hstep. cbn in Hstep.
  destruct (Ui.session u) as [σ|] eqn:Hsession; [|done].
  injection Hstep as <-.
  pose proof (session_orderly u Hinv) as Hsess. rewrite Hsession in Hsess.
  destruct Hsess as [Ho Hpending].
  pose proof (step_orderly P σ ev Ho) as Ho'.
  destruct (state (racePromise σ)) as [settled|] eqn:Hrace.
  - (* the race is over: the event is dropped *)
    assert (concluded σ) as Hc.
    { destruct Ho as (? & ? & _). split; [by rewrite Hrace|done]. }
    destruct (step_concluded P σ ev Hc) as ((Hs & _) & Hd & _).
    rewrite Hd, skipn_all. cbn.
    apply session_swap_invariant; try done.
    intros Hnone. rewrite Hnone in Hs. by destruct Hs.
  - specialize (Hpending eq_refl).
    assert (delivered σ = []) as Hd.
    { destruct Ho as (_ & _ & _ & _ & H). by rewrite Hrace in H. }
    rewrite Hd. cbn [length skipn].
    destruct (state (racePromise (App.step P σ ev))) as [settled|] eqn:Hrace'.
    + (* this event settles the race *)
      assert (exists out, delivered (App.step P σ ev) = [out])
        as [out Hout].
      { destruct Ho' as (_ & _ & _ & _ & H). rewrite Hrace' in H.
        destruct (delivered (App.step P σ ev)) as [|out [|? ?]]; try done.
        by exists out. }
      rewrite Hout.
      destruct (processing_captured u Hinv Hpending)
        as (Hshown & Hcap & Hactive & Herr & Hin).
      pose proof (refs_rendered u Hinv) as Hrend. rewrite Hshown in Hrend.
      apply outcome_invariant; cbn; try done.
      * apply quiet_if_unattached; [done|]. left. unfold attached.
        by rewrite (rendered_hidden _ Hrend (or_intror Hcap)).
      * apply (shown_falsy u Hinv).
    + assert (delivered (App.step P σ ev) = []) as ->.
      { destruct Ho' as (_ & _ & _ & _ & H). by rewrite Hrace' in H. }
      cbn. by apply session_swap_invariant.
Qed.


Lemma stop_quiet (u : Ui.State) (i : nat) :
  invariant u -> attached u = Some i ->
  forall j s, streams (stop_tracks i (device (Ui.cam u))) !! j = Some s ->
              stream_live s = false.
Proof.
  intros Hinv Hatt j s Hj. destruct (decide (i = j)) as [<-|Hne].
  - by apply (stop_tracks_lookup _ _ _ Hj).
  - unfold stop_tracks in Hj. cbn in Hj.
    rewrite list_lookup_alter_ne in Hj by done.
    destruct (stream_live s) eqn:Hs; [|done].
    destruct (live_attached u Hinv j s Hj Hs) as [_ Hj']. congruence.
Qed.

(** The page right after a capture that stored a still. *)
Lemma captured_invariant (u : Ui.State) (s : CameraView.State) (i : nat) :
  invariant u -> Ui.shown u = true -> attached u = Some i ->
  isProcessing (Ui.app u) = false -> Ui.inflight u = [] ->
  capturedImage s <> None -> streamActive s = false ->
  CameraView.error s = None ->
  invariant (Ui.with_cam
               (commit {| view := s;
                          device := stop_tracks i (device (Ui.cam u)) |}) u).
Proof.
  intros Hinv Hshown Hatt Hproc Hin Hcap Hactive Herr.
  pose proof (stop_quiet u i Hinv Hatt) as Hquiet.
  constructor; cbn.
  - intros j st Hj Hs. by rewrite (Hquiet j st Hj) in Hs.
  - rewrite Hshown. apply rendered_render.
  - apply (shown_falsy u Hinv).
  - by left.
  - by rewrite Hactive.
  - by rewrite Hproc.
  - by rewrite Herr.
  - pose proof (session_orderly u Hinv) as Hsess.
    destruct (Ui.session u); [|done]. by rewrite Hproc in *.
Qed.

(** [onCapture] has been called on that page: the session runs, or has
    already told its outcome. *)
Lemma clicked_invariant (u : Ui.State) (p : Process) (σ : Session) :
  invariant u -> Ui.shown u = true ->
  isProcessing (Ui.app u) = false -> Ui.inflight u = [] ->
  capturedImage (view (Ui.cam u)) <> None ->
  streamActive (view (Ui.cam u)) = false ->
  CameraView.error (view (Ui.cam u)) = None ->
  (forall j s, streams (device (Ui.cam u)) !! j = Some s ->
               stream_live s = false) ->
  orderly σ ->
  invariant
    (Ui.deliver (delivered σ)
       (Ui.App_rendered (Ui.app u)
          {| Ui.app := App.setError None (setIsProcessing true (Ui.app u));
             Ui.proc := p; Ui.session := Some σ; Ui.shown := Ui.shown u;
             Ui.instance := Ui.instance u; Ui.cam := Ui.cam u;
             Ui.inflight := Ui.inflight u |})).
Proof.
  intros Hinv Hshown Hproc Hin Hcap Hactive Herr Hquiet Ho.
  pose proof (shown_falsy u Hinv) as Hfalsy.
  pose proof (refs_rendered u Hinv) as Hrend. rewrite Hshown in Hrend.
  assert (videoRef (view (Ui.cam u)) = None) as Hv
    by (apply rendered_hidden; [done|by right]).
  unfold Ui.App_rendered. cbn. rewrite Hshown, Hproc.
  rewrite Hshown in Hfalsy. rewrite <- Hfalsy. cbn.
  unfold Ui.camera_effect. cbn.
  assert (effect_cleanup (Ui.cam u) = Ui.cam u) as ->
    by (unfold effect_cleanup; by rewrite Hv).
  destruct (state (racePromise σ)) as [settled|] eqn:Hrace.
  - assert (exists out, delivered σ = [out]) as [out ->].
    { destruct Ho as (_ & _ & _ & _ & H). rewrite Hrace in H.
      destruct (delivered σ) as [|out [|? ?]]; try done. by exists out. }
    apply outcome_invariant; cbn; done.
  - assert (delivered σ = []) as ->.
    { destruct Ho as (_ & _ & _ & _ & H). by rewrite Hrace in H. }
    cbn. constructor; cbn; try done.
    + intros j s Hj Hs. by rewrite (Hquiet j s Hj) in Hs.
    + by left.
    + by rewrite Hactive.
Qed.


Lemma shutter_enabled_facts (u : Ui.State) :
  invariant u -> Ui.shutter_enabled u = true ->
  exists v i,
    Ui.shown u = true /\ CameraView.error (view (Ui.cam u)) = None /\
    isProcessing (Ui.app u) = false /\
    capturedImage (view (Ui.cam u)) = None /\
    streamActive (view (Ui.cam u)) = true /\
    videoRef (view (Ui.cam u)) = Some v /\ srcObject v = Some i /\
    Ui.inflight u = [].
Proof.
  intros Hinv Hen. unfold Ui.shutter_enabled in Hen.
  repeat (apply andb_true_iff in Hen as [Hen ?]).
  destruct (CameraView.error (view (Ui.cam u))) eqn:Herr; [done|].
  destruct (capturedImage (view (Ui.cam u))) eqn:Hcap; [done|].
  destruct (isProcessing (Ui.app u)) eqn:Hproc; [done|].
  destruct (active_attached u Hinv) as [i Hatt]; [done|].
  unfold attached in Hatt.
  destruct (videoRef (view (Ui.cam u))) as [v|] eqn:Hv; [|done].
  exists v, i. repeat split; try done.
  destruct (one_inflight u Hinv) as [?|(at_ & _ & Hwait)]; [done|].
  destruct Hwait as (_ & _ & ? & _). congruence.
Qed.

Lemma shutter_invariant (P : Platform) (u u' : Ui.State) (env : CanvasEnv) :
  invariant u -> Ui.step P u (Ui.ShutterClicked env) = Some u' ->
  invariant u'.
Proof.
  intros Hinv Hstep. cbn in Hstep.
  destruct (Ui.shutter_enabled u) eqn:Hen; [|done].
  destruct (shutter_enabled_facts u Hinv Hen)
    as (v & i & Hshown & Herr & Hproc & Hcap & Hactive & Hv & Hsrc & Hin).
  assert (attached u = Some i) as Hatt by (unfold attached; by rewrite Hv).
  assert (forall c effects,
            device c = device (Ui.cam u) ->
            videoRef (view c) = videoRef (view (Ui.cam u)) ->
            CameraView.error (view c) = CameraView.error (view (Ui.cam u)) ->
            capturedImage (view c) = capturedImage (view (Ui.cam u)) ->
            streamActive (view c) = streamActive (view (Ui.cam u)) ->
            captures effects = [] ->
            (let '(c, effects) := (c, effects) in
             match captures effects with
             | [] => Some (Ui.with_cam (commit c) u)
             | base64 :: _ =>
                 Some (Ui.deliver
                         (delivered (handleCapture P base64 (Ui.app u)
                                       (Ui.proc u)))
                         (Ui.App_rendered (Ui.app u)
                            {| Ui.app := App.setError None
                                           (setIsProcessing true (Ui.app u));
                               Ui.proc := App.proc
                                            (handleCapture P base64 (Ui.app u)
                                               (Ui.proc u));
                               Ui.session :=
                                 Some (handleCapture P base64 (Ui.app u)
                                         (Ui.proc u));
                               Ui.shown := Ui.shown (Ui.with_cam (commit c) u);
                               Ui.instance :=
                                 Ui.instance (Ui.with_cam (commit c) u);
                               Ui.cam := Ui.cam (Ui.with_cam (commit c) u);
                               Ui.inflight :=
                                 Ui.inflight (Ui.with_cam (commit c) u) |}))
             end) = Some u' -> invariant u') as Hnone.
  { intros c effects H0 H1 H2 H3 H4 He Hs. cbn in Hs. rewrite He in Hs.
    injection Hs as <-. unfold commit. rewrite H0.
    by apply (commit_invariant u (view c)). }
  rewrite Hproc in Hstep. unfold capturePhoto in Hstep.
  rewrite Hv, Hactive in Hstep.
  destruct (canvasRef (view (Ui.cam u))) as [canvas|];
    [|by apply (Hnone (Ui.cam u) [])].
  destruct (Nat.eqb (videoWidth v) 0 || Nat.eqb (videoHeight v) 0);
    [by apply (Hnone (Ui.cam u) [])|].
  destruct (getContext_2d env); cbn [negb] in Hstep;
    [|by eapply (Hnone _ [FlashOffAfter 150]); [..|exact Hstep]].
  destruct (drawImage env);
    [by eapply (Hnone _ [FlashOffAfter 150]); [..|exact Hstep]|].
  destruct (toDataURL env) as [e|dataUrl];
    [by eapply (Hnone _ [FlashOffAfter 150]); [..|exact Hstep]|].
  rewrite Hsrc in Hstep.
  (* a still has been stored and the stream stopped *)
  pose proof (captured_invariant u
                (setStreamActive false
                   (setCapturedImage (Some dataUrl)
                      (set_canvasRef
                         (Some {| canvas_width := videoWidth v;
                                  canvas_height := videoHeight v |})
                         (setIsFlashing true (view (Ui.cam u))))))
                i Hinv Hshown Hatt Hproc Hin ltac:(done) eq_refl Herr)
    as Hcaptured.
  set (effects := match nth_error (split comma dataUrl) 1 with
                  | Some b => _
                  | None => _
                  end) in Hstep.
  assert (captures effects = [] \/ exists b, captures effects = [b])
    as [Hnocall|[b Hcall]].
  { subst effects. destruct (nth_error (split comma dataUrl) 1) as [b|];
      [|by left].
    destruct (truthy (Some b)); [right; by exists b|by left]. }
  - cbn in Hstep. rewrite Hnocall in Hstep. by injection Hstep as <-.
  - cbn in Hstep. rewrite Hcall in Hstep. injection Hstep as <-.
    apply (clicked_invariant _ _ _ Hcaptured); cbn; try done.
    + apply (stop_quiet u i Hinv Hatt).
    + apply handleCapture_orderly.
Qed.

Theorem step_invariant (P : Platform) (u u' : Ui.State) (e : Ui.Event) :
  invariant u -> Ui.step P u e = Some u' -> invariant u'.
Proof.
  destruct e.
  - apply gum_invariant.
  - apply video_invariant. left. eauto.
  - apply video_invariant. by right.
  - apply shutter_invariant.
  - apply retry_invariant.
  - apply session_invariant.
  - apply reset_invariant.
  - apply flash_invariant.
Qed.

Lemma reachable_invariant (P : Platform) (p : Process) (u : Ui.State) :
  reachable P p u -> invariant u.
Proof.
  induction 1 as [|u e u' _ IH Hstep].
  - apply invariant_initial.
  - by apply (step_invariant P u u' e).
Qed.


(** X16 (the effect of CameraView.tsx 63-73 with [startCamera],
    [capturePhoto] and the render of App.tsx 46).  Whatever the camera, the
    network, the timers and the user do, the page never holds two live
    camera streams, never has two [getUserMedia] calls waiting, and holds
    no live stream while one is waiting. *)
Theorem page_never_holds_two_streams
    (P : Platform) (p : Process) (u : Ui.State) :
  reachable P p u ->
  live_streams (device (Ui.cam u)) <= 1 /\
  length (Ui.inflight u) <= 1 /\
  (Ui.inflight u <> [] -> live_streams (device (Ui.cam u)) = 0).
Proof.
  intros Hinv%reachable_invariant. split; [|split].
  - unfold live_streams.
    destruct (attached u) as [k|] eqn:Hatt.
    + apply (one_live _ k). intros i s Hi Hs.
      destruct (live_attached u Hinv i s Hi Hs) as [_ Hi']. congruence.
    + rewrite none_live; [cbn; lia|].
      apply quiet_if_unattached; [done|by left].
  - destruct (one_inflight u Hinv) as [->|(at_ & -> & _)]; cbn; lia.
  - intros Hne. unfold live_streams. rewrite none_live; [done|].
    apply quiet_if_unattached; [done|]. left.
    destruct (one_inflight u Hinv) as [?|(at_ & _ & Hwait)]; [done|].
    destruct Hwait as (_ & _ & _ & _ & _ & v & Hv & Hsrc & _).
    unfold attached. by rewrite Hv.
Qed.

(** X17 (CameraView.tsx 63-118 and App.tsx 46).  On every page the code can
    reach, a live camera stream means that the camera screen is up, no
    analysis is running, no camera error and no still image is shown, and
    the live stream is the one attached to the video element on screen. *)
Theorem camera_on_only_behind_the_viewfinder
    (P : Platform) (p : Process) (u : Ui.State) :
  reachable P p u ->
  0 < live_streams (device (Ui.cam u)) ->
  screen (Ui.app u) = CameraScreen /\
  isProcessing (Ui.app u) = false /\
  CameraView.error (view (Ui.cam u)) = None /\
  capturedImage (view (Ui.cam u)) = None /\
  exists v i s,
    videoRef (view (Ui.cam u)) = Some v /\ srcObject v = Some i /\
    streams (device (Ui.cam u)) !! i = Some s /\ stream_live s = true.
Proof.
  intros Hinv%reachable_invariant Hlive.
  assert (exists i s, streams (device (Ui.cam u)) !! i = Some s /\
                      stream_live s = true) as (i & s & Hi & Hs).
  { unfold live_streams in Hlive.
    destruct (List.filter stream_live (streams (device (Ui.cam u))))
      as [|s l] eqn:Hf; [cbn in Hlive; lia|].
    assert (In s (List.filter stream_live (streams (device (Ui.cam u)))))
      as Hin by (rewrite Hf; by left).
    apply filter_In in Hin as [Hin Hs].
    apply list_elem_of_In, list_elem_of_lookup in Hin as [i Hi]. eauto. }
  destruct (live_attached u Hinv i s Hi Hs) as [Hshown Hatt].
  unfold attached in Hatt.
  destruct (videoRef (view (Ui.cam u))) as [v|] eqn:Hv; [|done].
  pose proof (refs_rendered u Hinv) as Hrend. rewrite Hshown in Hrend.
  destruct (rendered_visible _ v Hrend Hv) as [Herr Hcap].
  split.
  { unfold screen. pose proof (shown_falsy u Hinv) as Hf.
    rewrite Hshown in Hf. by destruct (js_truthy (result (Ui.app u))). }
  split.
  { destruct (isProcessing (Ui.app u)) eqn:Hp; [|done].
    destruct (processing_captured u Hinv Hp) as (_ & ? & _). done. }
  repeat split; try done. eauto 10.
Qed.


Lemma run_reachable (P : Platform) (p : Process) (events : list Ui.Event) :
  forall u u', reachable P p u -> Ui.run P u events = Some u' ->
               reachable P p u'.
Proof.
  induction events as [|e events IH]; intros u u' Hu Hrun; cbn in Hrun.
  - by injection Hrun as <-.
  - destruct (Ui.step P u e) as [u1|] eqn:Hstep; [|done].
    apply (IH u1); [|done]. by apply (reachable_step P p u e).
Qed.

(** X18 ([handleCapture] with the shutter of CameraView.tsx 216-220).  On
    every reachable page the session of the last capture has told the host
    at most one outcome and has left no rejection unhandled; when no
    analysis is running, and so whenever the shutter can be pressed, it has
    told exactly one. *)
Theorem capture_waits_for_the_last_outcome
    (P : Platform) (p : Process) (u : Ui.State) (σ : Session) :
  reachable P p u -> Ui.session u = Some σ ->
  length (delivered σ) <= 1 /\ unhandled σ = [] /\
  (isProcessing (Ui.app u) = false -> length (delivered σ) = 1) /\
  (Ui.shutter_enabled u = true -> length (delivered σ) = 1).
Proof.
  intros Hinv%reachable_invariant Hs.
  pose proof (session_orderly u Hinv) as Hsess. rewrite Hs in Hsess.
  destruct Hsess as [(_ & _ & _ & Hun & Hd) Hopen].
  assert (isProcessing (Ui.app u) = false -> length (delivered σ) = 1) as Hidle.
  { intros Hp. destruct (state (racePromise σ)); [done|].
    rewrite Hopen in Hp; done. }
  repeat split; try done.
  - destruct (state (racePromise σ)); [lia|]. rewrite Hd. cbn; lia.
  - intros Hen. apply Hidle. unfold Ui.shutter_enabled in Hen.
    destruct (isProcessing (Ui.app u)); [|done].
    rewrite andb_false_r in Hen. done.
Qed.

Lemma frozen_step (P : Platform) (u u' : Ui.State) (e : Ui.Event) :
  invariant u -> frozen u -> Ui.step P u e = Some u' ->
  frozen u' /\ Ui.app u' = Ui.app u /\
  device (Ui.cam u') = device (Ui.cam u) /\
  capturedImage (view (Ui.cam u')) = capturedImage (view (Ui.cam u)).
Proof.
  intros Hinv (Hshown & Hcap & Herr & Hproc) Hstep.
  pose proof (refs_rendered u Hinv) as Hrend. rewrite Hshown in Hrend.
  assert (videoRef (view (Ui.cam u)) = None) as Hv.
  { unfold rendered in Hrend. rewrite Herr in Hrend.
    destruct (capturedImage (view (Ui.cam u))); [|done].
    by destruct (videoRef (view (Ui.cam u))). }
  assert (Ui.inflight u = []) as Hin.
  { destruct (one_inflight u Hinv) as [?|(at_ & _ & Hw)]; [done|].
    destruct Hw as (_ & _ & _ & _ & Hc & _). done. }
  destruct e as [k o|w h| |env| |ev| |]; cbn in Hstep.
  - by rewrite Hin in Hstep.
  - unfold Ui.video_live in Hstep. rewrite Hv, andb_false_r in Hstep. done.
  - unfold Ui.video_live in Hstep. rewrite Hv, andb_false_r in Hstep. done.
  - unfold Ui.shutter_enabled in Hstep.
    destruct (capturedImage (view (Ui.cam u))); [|done].
    cbn in Hstep. rewrite andb_false_r in Hstep. done.
  - rewrite Herr, andb_false_r in Hstep. done.
  - destruct (Ui.session u) as [σ|] eqn:Hs; [|done].
    pose proof (session_orderly u Hinv) as Hsess. rewrite Hs in Hsess.
    destruct Hsess as [(Ha & Ht & _ & _ & _) Hopen].
    assert (concluded σ) as Hc.
    { split; [|done]. destruct (state (racePromise σ)); [by eexists|].
      rewrite Hopen in Hproc; done. }
    destruct (step_concluded P σ ev Hc) as (_ & Hd & _).
    rewrite Hd, skipn_all in Hstep. injection Hstep as <-.
    cbn. unfold frozen. cbn. done.
  - by rewrite Hshown in Hstep.
  - rewrite Hshown in Hstep. injection Hstep as <-.
    unfold frozen. cbn. done.
Qed.

(** No sequence of events gets the page out of such a state. *)
Lemma frozen_run
    (P : Platform) (p : Process) (events : list Ui.Event) :
  forall u u' : Ui.State,
  reachable P p u ->
  Ui.shown u = true ->
  capturedImage (view (Ui.cam u)) <> None ->
  CameraView.error (view (Ui.cam u)) = None ->
  isProcessing (Ui.app u) = false ->
  Ui.run P u events = Some u' ->
  Ui.app u' = Ui.app u /\
  capturedImage (view (Ui.cam u')) = capturedImage (view (Ui.cam u)) /\
  live_streams (device (Ui.cam u')) = 0 /\
  Ui.shutter_enabled u' = false /\
  screen (Ui.app u') = CameraScreen.
Proof.
  induction events as [|e events IH]; intros u u' Hu Hshown Hcap Herr Hproc Hrun;
    cbn in Hrun.
  - injection Hrun as <-. pose proof (reachable_invariant P p u Hu) as Hinv.
    repeat split; try done.
    + unfold live_streams. rewrite none_live; [done|].
      apply quiet_if_unattached; [done|]. left.
      pose proof (refs_rendered u Hinv) as Hrend. rewrite Hshown in Hrend.
      unfold rendered in Hrend. rewrite Herr in Hrend. unfold attached.
      destruct (capturedImage (view (Ui.cam u))); [|done].
      by destruct (videoRef (view (Ui.cam u))).
    + unfold Ui.shutter_enabled.
      destruct (capturedImage (view (Ui.cam u))); [|done].
      cbn. by rewrite andb_false_r.
    + unfold screen. pose proof (shown_falsy u Hinv) as Hf.
      rewrite Hshown in Hf. by destruct (js_truthy (result (Ui.app u))).
  - destruct (Ui.step P u e) as [u1|] eqn:Hstep; [|done].
    pose proof (reachable_invariant P p u Hu) as Hinv.
    destruct (frozen_step P u u1 e Hinv) as ((H1 & H2 & H3 & H4) & Ha & _ & Hc);
      [done|done|].
    destruct (IH u1 u') as (Ha' & Hc' & Hl & Hs & Hscr); try done.
    { by apply (reachable_step P p u e). }
    repeat split; try done; congruence.
Qed.


Lemma quiet_no_live (d : Device) :
  (forall i s, streams d !! i = Some s -> stream_live s = false) ->
  live_streams d = 0.
Proof. intros H. unfold live_streams. by rewrite none_live. Qed.

Lemma deliver_one (u : Ui.State) (out : AnalysisOutcome) :
  Ui.shown u = true ->
  isProcessing (Ui.app u) = true ->
  videoRef (view (Ui.cam u)) = None ->
  CameraView.error (view (Ui.cam u)) = None ->
  Ui.inflight u = [] ->
  let u' := Ui.deliver [out] u in
  Ui.app u' = Ui.apply_outcome out (Ui.app u) /\
  isProcessing (Ui.app u') = false /\
  streams (device (Ui.cam u')) = streams (device (Ui.cam u)) /\
  if js_truthy (result (Ui.app u')) then
    Ui.shown u' = false /\ view (Ui.cam u') = unmounted /\
    Ui.inflight u' = [] /\
    requested (device (Ui.cam u')) = requested (device (Ui.cam u))
  else
    Ui.shown u' = true /\
    capturedImage (view (Ui.cam u')) = None /\
    is_Some (videoRef (view (Ui.cam u'))) /\
    Ui.inflight u' = [(Ui.instance u', AwaitingPreferred)] /\
    requested (device (Ui.cam u'))
    = (requested (device (Ui.cam u)) ++ [preferred_constraints])%list.
Proof.
  intros Hshown Hproc Hvideo Herr Hin u'. subst u'.
  assert (isProcessing (Ui.apply_outcome out (Ui.app u)) = false) as Hdone
    by (by destruct out).
  unfold Ui.deliver. cbn [fold_left].
  unfold Ui.App_rendered. cbn [Ui.shown Ui.with_app]. rewrite Hshown.
  destruct (js_truthy (result (Ui.app (Ui.with_app
              (Ui.apply_outcome out (Ui.app u)) u)))) eqn:Htruthy;
    cbn [negb].
  - cbn. cbn in Htruthy. rewrite Htruthy. done.
  - cbn [Ui.app Ui.with_app]. rewrite Hproc, Hdone. cbn [Bool.eqb].
    unfold Ui.camera_effect. cbn [Ui.app Ui.with_cam Ui.with_app].
    rewrite Hdone.
    change (Ui.cam (Ui.with_app (Ui.apply_outcome out (Ui.app u)) u))
      with (Ui.cam u).
    assert (effect_cleanup (Ui.cam u) = Ui.cam u) as ->
      by (unfold effect_cleanup; by rewrite Hvideo).
    cbn. cbn in Htruthy. rewrite Htruthy, Herr, Hin. cbn.
    repeat split; try done. rewrite Hvideo. by eexists.
Qed.

(** X20 (the effect of CameraView.tsx 63-73 with App.tsx 27-46).  While a
    session is open, an event that does not settle it leaves the page
    processing.  The event that settles it applies the outcome and clears
    [isProcessing]; then either the result is truthy and [CameraView] is
    unmounted with no camera request, or the still is dropped, the video
    element is back and the camera is requested once, with the preferred
    constraints.  No stream is live either way. *)
Theorem analysis_outcome_moves_the_page
    (P : Platform) (p : Process) (u u' : Ui.State) (σ : Session)
    (ev : App.Event) :
  reachable P p u ->
  Ui.session u = Some σ -> state (racePromise σ) = None ->
  Ui.step P u (Ui.SessionEvent ev) = Some u' ->
  match delivered (App.step P σ ev) with
  | [] =>
      Ui.app u' = Ui.app u /\ Ui.cam u' = Ui.cam u /\
      Ui.inflight u' = [] /\ isProcessing (Ui.app u') = true
  | out :: _ =>
      Ui.app u' = Ui.apply_outcome out (Ui.app u) /\
      isProcessing (Ui.app u') = false /\
      live_streams (device (Ui.cam u')) = 0 /\
      if js_truthy (result (Ui.app u')) then
        Ui.shown u' = false /\ view (Ui.cam u') = unmounted /\
        Ui.inflight u' = [] /\
        requested (device (Ui.cam u')) = requested (device (Ui.cam u))
      else
        Ui.shown u' = true /\
        capturedImage (view (Ui.cam u')) = None /\
        is_Some (videoRef (view (Ui.cam u'))) /\
        Ui.inflight u' = [(Ui.instance u', AwaitingPreferred)] /\
        requested (device (Ui.cam u'))
        = (requested (device (Ui.cam u)) ++ [preferred_constraints])%list
  end.
Proof.
  intros Hinv%reachable_invariant Hsession Hrace Hstep. cbn in Hstep.
  rewrite Hsession in Hstep. injection Hstep as <-.
  pose proof (session_orderly u Hinv) as Hsess. rewrite Hsession in Hsess.
  destruct Hsess as [Ho Hpending]. specialize (Hpending Hrace).
  pose proof (step_orderly P σ ev Ho) as (_ & _ & _ & _ & Hd').
  assert (delivered σ = []) as Hd.
  { destruct Ho as (_ & _ & _ & _ & H). by rewrite Hrace in H. }
  rewrite Hd. cbn [length skipn].
  destruct (processing_captured u Hinv Hpending)
    as (Hshown & Hcap & Hactive & Herr & Hin).
  pose proof (refs_rendered u Hinv) as Hrend. rewrite Hshown in Hrend.
  assert (videoRef (view (Ui.cam u)) = None) as Hvideo
    by (apply rendered_hidden; [done|by right]).
  assert (forall i s, streams (device (Ui.cam u)) !! i = Some s ->
                      stream_live s = false) as Hquiet.
  { apply quiet_if_unattached; [done|]. left. unfold attached.
    by rewrite Hvideo. }
  destruct (delivered (App.step P σ ev)) as [|out [|? ?]] eqn:Hout.
  - cbn. done.
  - rewrite skipn_O.
    match goal with
    | |- context [Ui.deliver [out] ?r] =>
        pose proof (deliver_one r out Hshown Hpending Hvideo Herr Hin) as H
    end.
    cbv zeta in H; destruct H as (Ha & Hp & Hs & Hrest).
    split; [exact Ha|]. split; [exact Hp|]. split; [|exact Hrest].
    apply quiet_no_live. rewrite Hs. exact Hquiet.
  - destruct (state (racePromise (App.step P σ ev))); cbn in Hd'; done.
Qed.

(** X21 ([handleReset], App.tsx 36-39, with the mount effect of
    CameraView.tsx 63-73).  Reset is only available on the result screen;
    it brings up the camera screen with no banner and a new [CameraView]
    instance, which requests the camera once with the preferred
    constraints; no stream is live at that point. *)
Theorem reset_returns_to_a_new_viewfinder
    (P : Platform) (p : Process) (u u' : Ui.State) :
  reachable P p u ->
  Ui.step P u Ui.ResetClicked = Some u' ->
  screen (Ui.app u) = ResultScreen /\
  screen (Ui.app u') = CameraScreen /\ banner (Ui.app u') = None /\
  isProcessing (Ui.app u') = false /\
  Ui.instance u' = S (Ui.instance u) /\
  Ui.inflight u' = [(Ui.instance u', AwaitingPreferred)] /\
  view (Ui.cam u') = render unmounted /\
  live_streams (device (Ui.cam u')) = 0 /\
  requested (device (Ui.cam u'))
  = (requested (device (Ui.cam u)) ++ [preferred_constraints])%list.
Proof.
  intros Hinv%reachable_invariant Hstep. cbn in Hstep.
  destruct (Ui.shown u) eqn:Hshown; [done|]. injection Hstep as <-.
  assert (isProcessing (Ui.app u) = false) as Hproc.
  { destruct (isProcessing (Ui.app u)) eqn:Hp; [|done].
    destruct (processing_captured u Hinv Hp) as [? _]. congruence. }
  assert (Ui.inflight u = []) as Hin.
  { destruct (one_inflight u Hinv) as [?|(at_ & _ & Hwait)]; [done|].
    destruct Hwait as [? _]. congruence. }
  assert (forall i s, streams (device (Ui.cam u)) !! i = Some s ->
                      stream_live s = false) as Hquiet
    by (apply quiet_if_unattached; [done|by right]).
  split.
  { unfold screen. pose proof (shown_falsy u Hinv) as Hf.
    rewrite Hshown in Hf. by destruct (js_truthy (result (Ui.app u))). }
  unfold Ui.App_rendered. cbn. rewrite Hshown.
  unfold Ui.camera_effect. cbn. rewrite Hproc. cbn. rewrite Hin.
  repeat split; try done. by apply quiet_no_live.
Qed.






Lemma render_keeps_cells (s : CameraView.State) :
  capturedImage (render s) = capturedImage s /\
  CameraView.error (render s) = CameraView.error s.
Proof. split; reflexivity. Qed.

(** A click on the shutter whose capture stores a still without a
    payload. *)
Lemma empty_capture_step (P : Platform) (u u1 : Ui.State) (env : CanvasEnv)
    (stream : nat) (dataUrl : string) :
  invariant u -> capture_ready (Ui.cam u) stream ->
  getContext_2d env = true -> drawImage env = None ->
  toDataURL env = inr dataUrl ->
  truthy (nth_error (split comma dataUrl) 1) = false ->
  Ui.step P u (Ui.ShutterClicked env) = Some u1 ->
  Ui.app u1 = Ui.app u /\ Ui.session u1 = Ui.session u /\
  Ui.shown u1 = true /\
  capturedImage (view (Ui.cam u1)) = Some dataUrl /\
  CameraView.error (view (Ui.cam u1)) = None /\
  isProcessing (Ui.app u1) = false.
Proof.
  intros Hinv Hready Hctx Hdraw Hurl Hempty Hstep. cbn in Hstep.
  destruct (Ui.shutter_enabled u) eqn:Hen; [|done].
  destruct (shutter_enabled_facts u Hinv Hen)
    as (v & i & Hshown & Herr & Hproc & _).
  rewrite Hproc in Hstep.
  destruct (capturePhoto_passes env (Ui.cam u) stream dataUrl
              Hready Hctx Hdraw Hurl) as (video & _ & Hshot).
  rewrite Hshot in Hstep.
  assert (captures
            match nth_error (split comma dataUrl) 1 with
            | Some b => if String.eqb b "" then [FlashOffAfter 150]
                        else [FlashOffAfter 150; OnCapture b]
            | None => [FlashOffAfter 150]
            end = []) as Hnone.
  { destruct (nth_error (split comma dataUrl) 1) as [b|]; [|done].
    cbn in Hempty. by destruct (String.eqb b ""). }
  rewrite Hnone in Hstep. injection Hstep as <-. cbn.
  rewrite Hshown, Herr, Hproc. done.
Qed.

Lemma frozen_stays (P : Platform) (p : Process) (events : list Ui.Event) :
  forall u u' : Ui.State,
  reachable P p u -> frozen u -> Ui.run P u events = Some u' -> frozen u'.
Proof.
  induction events as [|e events IH]; intros u u' Hu Hstuck Hrun;
    cbn in Hrun.
  - by injection Hrun as <-.
  - destruct (Ui.step P u e) as [u1|] eqn:Hstep; [|done].
    apply (IH u1); [by apply (reachable_step P p u e)| |done].
    by destruct (frozen_step P u u1 e (reachable_invariant P p u Hu)
                   Hstuck Hstep).
Qed.

(** X19 ([capturePhoto], CameraView.tsx 99-110, with the JSX of 122-220).
    A capture that goes through with a data URL that is not empty but has
    nothing after its first comma (as [data:,]) starts no session and
    leaves the still on screen with no analysis running and no camera
    error.  From such a page no sequence of events changes [App]'s state or
    the still: the camera stays off, the shutter stays away and the camera
    screen stays up. *)
Theorem empty_capture_freezes_the_page (P : Platform) (p : Process) :
  (forall (u u1 : Ui.State) (env : CanvasEnv) (stream : nat)
          (dataUrl : string),
     reachable P p u -> capture_ready (Ui.cam u) stream ->
     getContext_2d env = true -> drawImage env = None ->
     toDataURL env = inr dataUrl -> dataUrl <> "" ->
     truthy (nth_error (split comma dataUrl) 1) = false ->
     Ui.step P u (Ui.ShutterClicked env) = Some u1 ->
     Ui.app u1 = Ui.app u /\ Ui.session u1 = Ui.session u /\
     capturedImage (view (Ui.cam u1)) = Some dataUrl /\ frozen u1) /\
  (forall (events : list Ui.Event) (u u' : Ui.State),
     reachable P p u -> frozen u -> Ui.run P u events = Some u' ->
     frozen u' /\
     Ui.app u' = Ui.app u /\
     capturedImage (view (Ui.cam u')) = capturedImage (view (Ui.cam u)) /\
     live_streams (device (Ui.cam u')) = 0 /\
     Ui.shutter_enabled u' = false /\
     screen (Ui.app u') = CameraScreen).
Proof.
  split.
  - intros u u1 env stream dataUrl Hu Hready Hctx Hdraw Hurl _ Hempty Hstep.
    destruct (empty_capture_step P u u1 env stream dataUrl
                (reachable_invariant P p u Hu) Hready Hctx Hdraw Hurl
                Hempty Hstep) as (Ha & Hs & Hshown & Hcap & Herr & Hproc).
    repeat split; try done. by rewrite Hcap.
  - intros events u u' Hu Hstuck Hrun.
    split; [by apply (frozen_stays P p events u u')|].
    destruct Hstuck as (Hshown & Hcap & Herr & Hproc).
    by apply (frozen_run P p events u u').
Qed.

Lemma page_after_reachable (events : list Ui.Event) :
  is_Some (Ui.run Sample.platform (Ui.initial Sample.process) events) ->
  reachable Sample.platform Sample.process (Scenario.page_after events).
Proof.
  intros [u Hu]. unfold Scenario.page_after. rewrite Hu.
  apply (run_reachable Sample.platform Sample.process events
           (Ui.initial Sample.process)); [constructor|done].
Qed.

Lemma page_never_holds_two_streams_witness :
  live_streams (device (Ui.cam (Scenario.page_after Scenario.to_streaming)))
  <= 1 /\
  length (Ui.inflight (Scenario.page_after Scenario.to_streaming)) <= 1 /\
  (Ui.inflight (Scenario.page_after Scenario.to_streaming) <> [] ->
   live_streams
     (device (Ui.cam (Scenario.page_after Scenario.to_streaming))) = 0).
Proof.
  apply (page_never_holds_two_streams Sample.platform Sample.process).
  apply page_after_reachable. vm_compute. eexists. reflexivity.
Defined.

Lemma camera_on_only_behind_the_viewfinder_witness :
  live_streams (device (Ui.cam (Scenario.page_after Scenario.to_streaming)))
  = 1 /\
  screen (Ui.app (Scenario.page_after Scenario.to_streaming)) = CameraScreen /\
  isProcessing (Ui.app (Scenario.page_after Scenario.to_streaming)) = false.
Proof.
  split; [reflexivity|].
  destruct (camera_on_only_behind_the_viewfinder Sample.platform
              Sample.process (Scenario.page_after Scenario.to_streaming))
    as (Hscreen & Hproc & _).
  - apply page_after_reachable. vm_compute. eexists. reflexivity.
  - vm_compute. lia.
  - split; [exact Hscreen|exact Hproc].
Defined.

Lemma capture_waits_for_the_last_outcome_witness :
  Ui.shutter_enabled (Scenario.page_after
                        (Scenario.to_analysing
                         ++ [Ui.SessionEvent DeadlineFires;
                             Ui.GetUserMediaSettles 0 Grants;
                             Ui.VideoPlays 640 480])) = true /\
  length (delivered
            (Scenario.session_of
               (Scenario.page_after
                  (Scenario.to_analysing
                   ++ [Ui.SessionEvent DeadlineFires;
                       Ui.GetUserMediaSettles 0 Grants;
                       Ui.VideoPlays 640 480])))) = 1.
Proof.
  split; [reflexivity|].
  apply (capture_waits_for_the_last_outcome Sample.platform Sample.process
           (Scenario.page_after
              (Scenario.to_analysing
               ++ [Ui.SessionEvent DeadlineFires;
                   Ui.GetUserMediaSettles 0 Grants;
                   Ui.VideoPlays 640 480]))).
  - apply page_after_reachable. vm_compute. eexists. reflexivity.
  - reflexivity.
  - reflexivity.
Defined.

Lemma streaming_page_ready :
  capture_ready (Ui.cam (Scenario.page_after Scenario.to_streaming)) 0.
Proof.
  split; [reflexivity|]. do 2 eexists.
  repeat split; try reflexivity; cbn; discriminate.
Qed.

Lemma empty_capture_freezes_the_page_witness :
  capturedImage (view (Ui.cam (Scenario.page_after Scenario.to_still)))
  = Some "data:," /\
  Ui.session (Scenario.page_after Scenario.to_still) = None /\
  frozen (Scenario.page_after Scenario.to_still) /\
  frozen (Scenario.page_after (Scenario.to_still ++ [Ui.FlashTimerFires])) /\
  live_streams
    (device (Ui.cam (Scenario.page_after
                       (Scenario.to_still ++ [Ui.FlashTimerFires])))) = 0 /\
  Ui.shutter_enabled
    (Scenario.page_after (Scenario.to_still ++ [Ui.FlashTimerFires])) = false.
Proof.
  destruct (empty_capture_freezes_the_page Sample.platform Sample.process)
    as [Hcapture Hfrozen].
  destruct (Hcapture (Scenario.page_after Scenario.to_streaming)
              (Scenario.page_after Scenario.to_still)
              (Sample.good_canvas "data:,") 0 "data:,")
    as (_ & Hsession & Hstill & Hstuck).
  - apply page_after_reachable. vm_compute. eexists. reflexivity.
  - apply streaming_page_ready.
  - reflexivity.
  - reflexivity.
  - reflexivity.
  - discriminate.
  - reflexivity.
  - vm_compute. reflexivity.
  - destruct (Hfrozen [Ui.FlashTimerFires]
                (Scenario.page_after Scenario.to_still)
                (Scenario.page_after
                   (Scenario.to_still ++ [Ui.FlashTimerFires])))
      as (Hstuck' & _ & _ & Hlive & Hshutter & _).
    + apply page_after_reachable. vm_compute. eexists. reflexivity.
    + exact Hstuck.
    + vm_compute. reflexivity.
    + split; [exact Hstill|]. split; [rewrite Hsession; reflexivity|].
      split; [exact Hstuck|]. split; [exact Hstuck'|].
      split; [exact Hlive|exact Hshutter].
Defined.


Lemma analysis_outcome_moves_the_page_witness :
  Ui.shown (Scenario.page_after Scenario.to_result) = false /\
  Ui.inflight (Scenario.page_after Scenario.to_result) = [] /\
  live_streams (device (Ui.cam (Scenario.page_after Scenario.to_result))) = 0.
Proof.
  pose proof (analysis_outcome_moves_the_page Sample.platform Sample.process
                (Scenario.page_after Scenario.to_analysing)
                (Scenario.page_after Scenario.to_result)
                (Scenario.session_of
                   (Scenario.page_after Scenario.to_analysing))
                (AnalysisSettles (Resolves (Some Sample.document_text)))) as H.
  assert (delivered
            (step Sample.platform
               (Scenario.session_of
                  (Scenario.page_after Scenario.to_analysing))
               (AnalysisSettles (Resolves (Some Sample.document_text))))
          = [Success Sample.document]) as Hd by reflexivity.
  rewrite Hd in H.
  destruct H as (_ & _ & Hlive & Hrest).
  - apply page_after_reachable. vm_compute. eexists. reflexivity.
  - reflexivity.
  - reflexivity.
  - vm_compute. reflexivity.
  - assert (js_truthy
              (result (Ui.app (Scenario.page_after Scenario.to_result)))
            = true) as Ht by reflexivity.
    rewrite Ht in Hrest. destruct Hrest as (Hshown & _ & Hin & _).
    split; [exact Hshown|]. split; [exact Hin|exact Hlive].
Defined.

Lemma reset_returns_to_a_new_viewfinder_witness :
  screen (Ui.app (Scenario.page_after Scenario.to_result)) = ResultScreen /\
  screen (Ui.app (Scenario.page_after
                    (Scenario.to_result ++ [Ui.ResetClicked])))
  = CameraScreen /\
  Ui.inflight (Scenario.page_after (Scenario.to_result ++ [Ui.ResetClicked]))
  = [(1, AwaitingPreferred)].
Proof.
  destruct (reset_returns_to_a_new_viewfinder Sample.platform Sample.process
              (Scenario.page_after Scenario.to_result)
              (Scenario.page_after (Scenario.to_result ++ [Ui.ResetClicked])))
    as (Hfrom & Hto & _ & _ & Hinst & Hin & _).
  - apply page_after_reachable. vm_compute. eexists. reflexivity.
  - vm_compute. reflexivity.
  - split; [exact Hfrom|]. split; [exact Hto|].
    rewrite Hin, Hinst. reflexivity.
Defined.

End PageFacts.
